(** * LiteLLM WebSocket client (examples/websocket_client.js)

    A shallow embedding of [LiteLLMWebSocketClient]: the identifier
    generator [generateUUID], the handler registry [messageHandlers], the
    closures installed by [sendChatCompletion] and [ping], the timer armed
    by [ping] and the routing entry point [handleMessage].

    Modelling conventions.
    - Decoded frames are JSON values ([value]); property reads follow
      JavaScript: reading a property of [null] or [undefined] throws a
      TypeError, reading a missing property yields [undefined].
    - JSON numbers are modelled by [Z]; the client only tests them for
      truthiness and converts them to text.  The text is JavaScript's for
      the integers a double holds exactly ([exact_text]).
    - The outside world is a log of [effect]s: every call of a promise's
      [resolve] or [reject], every call of the [onChunk] observer, every
      [console.log] and every [ws.send] is appended to the log in program
      order.  In [sendChatCompletion], [ping], [handleMessage] and the runs
      built from them ([run]) the transport is open ([ws.send] returns) and
      the observer returns normally; [sendChatCompletion_on], [ping_on],
      [handleMessage_with] and the runs built from them ([play]) make a
      throwing [ws.send] and a throwing observer explicit.
    - [Math.random] is a sequence of numbers of the unit interval, given as
      exact rationals (every double is one). *)

From Stdlib Require Import QArith Ascii.
From stdpp Require Import gmap strings pretty list.

Local Open Scope Z_scope.
Set Warnings "-register-all".

(** ** JavaScript values *)

Module Js.

Inductive value : Type :=
  | VUndefined
  | VNull
  | VBool (b : bool)
  | VNum (n : Z)
  | VStr (s : string)
  | VArr (items : list value)
  | VObj (fields : list (string * value)).

(** What a throwing operation throws. *)
Inductive exn : Type :=
  | TypeError.

(** Result of an expression that may throw. *)
Inductive result (A : Type) : Type :=
  | Ok (a : A)
  | Throw (e : exn).
Arguments Ok {A} a.
Arguments Throw {A} e.

(** ToBoolean. *)
Definition truthy (v : value) : bool :=
  match v with
  | VUndefined | VNull => false
  | VBool b => b
  | VNum n => negb (n =? 0)
  | VStr s => negb (String.eqb s "")
  | VArr _ | VObj _ => true
  end.

(** [v === 'lit'] for a string literal. *)
Definition strict_eq_str (v : value) (lit : string) : bool :=
  match v with
  | VStr s => String.eqb s lit
  | _ => false
  end.

(** Own property of an object built by [JSON.parse]. *)
Fixpoint assoc (k : string) (fields : list (string * value)) : value :=
  match fields with
  | [] => VUndefined
  | (k', v) :: rest => if String.eqb k k' then v else assoc k rest
  end.

(** [v.name], for the names the client reads ([request_id], [type],
    [error], [data], [choices], [delta], [message], [content]); none of
    them is inherited by arrays, strings, numbers or booleans. *)
Definition get_field (v : value) (name : string) : result value :=
  match v with
  | VUndefined | VNull => Throw TypeError
  | VObj fields => Ok (assoc name fields)
  | VBool _ | VNum _ | VStr _ | VArr _ => Ok VUndefined
  end.

(** [v[0]]. *)
Definition get_index0 (v : value) : result value :=
  match v with
  | VUndefined | VNull => Throw TypeError
  | VArr (x :: _) => Ok x
  | VArr [] => Ok VUndefined
  | VStr (String c _) => Ok (VStr (String c EmptyString))
  | VStr EmptyString => Ok VUndefined
  | VObj fields => Ok (assoc "0" fields)
  | VBool _ | VNum _ => Ok VUndefined
  end.

(** [v?.name]. *)
Definition get_field_opt (v : value) (name : string) : value :=
  match get_field v name with
  | Ok w => w
  | Throw _ => VUndefined
  end.

Definition join_with (sep : string) (parts : list string) : string :=
  String.concat sep parts.

(** ToString.  An object answers ["[object Object]"] unless it carries an
    own [toString] property, which after [JSON.parse] is never callable:
    the conversion then throws (result [None]).  Array elements that are
    [null] or [undefined] are joined as empty text. *)
Fixpoint to_string (v : value) : option string :=
  match v with
  | VUndefined => Some "undefined"
  | VNull => Some "null"
  | VBool true => Some "true"
  | VBool false => Some "false"
  | VNum n => Some (pretty n)
  | VStr s => Some s
  | VArr items =>
      join_with "," <$>
        mapM (fun x => match x with
                       | VUndefined | VNull => Some EmptyString
                       | _ => to_string x
                       end) items
  | VObj fields =>
      match assoc "toString" fields with
      | VUndefined => Some "[object Object]"
      | _ => None
      end
  end.

End Js.
Import Js.

(** ** Identifier generator *)

Module Uuid.

(** ToInt32: the wrap-around of the bitwise operators. *)
Definition to_int32 (z : Z) : Z :=
  (z + 2 ^ 31) mod 2 ^ 32 - 2 ^ 31.

(** Truncation toward zero of a rational. *)
Definition Qtrunc (q : Q) : Z := Z.quot (Qnum q) (Zpos (Qden q)).

Definition hex_digit (d : Z) : ascii :=
  match d with
  | 0 => "0" | 1 => "1" | 2 => "2" | 3 => "3" | 4 => "4" | 5 => "5"
  | 6 => "6" | 7 => "7" | 8 => "8" | 9 => "9" | 10 => "a" | 11 => "b"
  | 12 => "c" | 13 => "d" | 14 => "e" | _ => "f"
  end%char.

Fixpoint to_radix16 (fuel : nat) (n : Z) : string :=
  match fuel with
  | O => EmptyString
  | S f =>
      if n <? 16 then String (hex_digit n) EmptyString
      else to_radix16 f (n / 16) +:+ String (hex_digit (n mod 16)) EmptyString
  end.

(** [v.toString(16)] for an int32 [v] (at most eight digits). *)
Definition toString16 (v : Z) : string :=
  if v <? 0 then "-" +:+ to_radix16 8 (- v) else to_radix16 8 v.

(** The replacer callback: [x] is the value [Math.random()] returned. *)
Definition replacer (c : ascii) (x : Q) : string :=
  let r := to_int32 (Qtrunc (x * 16)) in
  let v := if Ascii.eqb c "x" then r else Z.lor (Z.land r 3) 8 in
  toString16 v.

Definition template : string := "xxxxxxxx-xxxx-4xxx-yxxx-xxxxxxxxxxxx".

(** [s.replace(/[xy]/g, replacer)]: matches are visited left to right;
    [k] counts the draws consumed so far. *)
Fixpoint replace_xy (s : string) (draws : nat -> Q) (k : nat) : string :=
  match s with
  | EmptyString => EmptyString
  | String c rest =>
      if Ascii.eqb c "x" || Ascii.eqb c "y"
      then replacer c (draws k) +:+ replace_xy rest draws (S k)
      else String c (replace_xy rest draws k)
  end.

Definition generateUUID (draws : nat -> Q) : string :=
  replace_xy template draws 0.

(** The standard version-4 layout, as a checker on strings. *)
Definition is_hex (c : ascii) : bool :=
  existsb (Ascii.eqb c) (String.list_ascii_of_string "0123456789abcdef").

Definition is_variant (c : ascii) : bool :=
  existsb (Ascii.eqb c) (String.list_ascii_of_string "89ab").

Definition char_ok (i : nat) (c : ascii) : bool :=
  if existsb (Nat.eqb i) [8; 13; 18; 23]%nat then Ascii.eqb c "-"
  else if Nat.eqb i 14 then Ascii.eqb c "4"
  else if Nat.eqb i 19 then is_variant c
  else is_hex c.

Fixpoint layout_from (i : nat) (s : string) : bool :=
  match s with
  | EmptyString => Nat.eqb i 36
  | String c rest => char_ok i c && layout_from (S i) rest
  end.

Definition uuid_v4_layout (s : string) : bool := layout_from 0 s.

(** Characters of the template that [replace] copies. *)
Fixpoint copied (s : string) : nat :=
  match s with
  | EmptyString => 0%nat
  | String c rest =>
      if Ascii.eqb c "x" || Ascii.eqb c "y" then copied rest
      else S (copied rest)
  end.

(** A draw of [Math.random]: a number of the interval [0, 1). *)
Definition unit_draw (x : Q) : Prop := (0 <= x)%Q /\ (x < 1)%Q.

(** The integer [Math.random() * 16 | 0] for a draw [x]. *)
Definition nibble (x : Q) : Z := to_int32 (Qtrunc (x * 16)).

(** Number of draws one identifier consumes: the [x] and [y] of the
    template. *)
Definition draws_used : nat := 31.

(** What the [k]-th draw contributes to the identifier: its four bits, or
    only the low two for the variant digit (the sixteenth draw). *)
Definition uuid_bits (draws : nat -> Q) (k : nat) : Z :=
  if Nat.eqb k 15 then Z.land (nibble (draws k)) 3 else nibble (draws k).

End Uuid.

(** ** Correlation engine *)

Module Client.
Import Uuid.

(** Identity of a promise created by [new Promise] (allocation order). *)
Definition promise : Type := nat.

(** Identity of a caller-supplied [onChunk] function. *)
Definition observer : Type := nat.

(** Calls that leave the client, in program order. *)
Inductive effect : Type :=
  | Resolve (p : promise) (v : value)          (* resolve(v) *)
  | Reject (p : promise) (message : string)    (* reject(new Error(message)) *)
  | OnChunk (f : observer) (content : value)   (* onChunk(content) *)
  | ConsoleLog (line : string)                 (* console.log(line) *)
  | WsSend (request : value).      (* ws.send(JSON.stringify(request)) *)

(** The closures stored in [messageHandlers].  A closure of
    [sendChatCompletion] captures [resolve]/[reject] of its promise, the
    [stream] and [onChunk] options and the variable [fullResponse]; a
    closure of [ping] captures [resolve].  The captured [requestId] is the
    key the closure is registered under. *)
Inductive handler : Type :=
  | ChatHandler (p : promise) (stream : value) (onChunk : option observer)
                (fullResponse : string)
  | PingHandler (p : promise).

(** The callback given to [setTimeout] by [ping]. *)
Record timer : Type := Timer { pingId : string; ping_promise : promise }.

Record client : Type := Client {
  messageHandlers : gmap string handler;
  timers : list timer;          (* armed, not yet fired *)
  promises : nat;               (* promises created so far *)
  trace : list effect;          (* oldest first *)
}.

Definition handler_promise (h : handler) : promise :=
  match h with
  | ChatHandler p _ _ _ => p
  | PingHandler p => p
  end.

(** *** A state-and-exception monad for method bodies *)

Definition M (A : Type) : Type := client -> result A * client.

Definition ret {A} (a : A) : M A := fun c => (Ok a, c).

Definition bind {A B} (m : M A) (k : A -> M B) : M B :=
  fun c => match m c with
           | (Ok a, c') => k a c'
           | (Throw e, c') => (Throw e, c')
           end.

Definition lift {A} (r : result A) : M A := fun c => (r, c).

Definition emit (e : effect) : M unit :=
  fun c => (Ok tt, Client (messageHandlers c) (timers c) (promises c)
                          (trace c ++ [e])).

Definition set_handler (id : string) (h : handler) : M unit :=
  fun c => (Ok tt, Client (<[id := h]> (messageHandlers c)) (timers c)
                          (promises c) (trace c)).

Definition delete_handler (id : string) : M unit :=
  fun c => (Ok tt, Client (delete id (messageHandlers c)) (timers c)
                          (promises c) (trace c)).

Definition new_promise : M promise :=
  fun c => (Ok (promises c),
            Client (messageHandlers c) (timers c) (S (promises c)) (trace c)).

Definition set_timeout (t : timer) : M unit :=
  fun c => (Ok tt, Client (messageHandlers c) (timers c ++ [t]) (promises c)
                          (trace c)).

Notation "x <~ m ;; k" := (bind m (fun x => k))
  (at level 100, m at next level, right associativity).
Notation "m ;;; k" := (bind m (fun _ => k))
  (at level 100, right associativity).

(** [messageHandlers.get(key)] for an arbitrary key: the keys in use are
    strings, and [Map] compares keys without coercion. *)
Definition lookup_handler (key : value) (c : client) : option handler :=
  match key with
  | VStr s => messageHandlers c !! s
  | _ => None
  end.

(** The message of [new Error(v)]: empty when [v] is [undefined]. *)
Definition error_message (v : value) : result string :=
  match v with
  | VUndefined => Ok EmptyString
  | _ => match to_string v with
         | Some s => Ok s
         | None => Throw TypeError
         end
  end.

(** [fullResponse += content]. *)
Definition concat_value (s : string) (v : value) : result string :=
  match to_string v with
  | Some t => Ok (s +:+ t)
  | None => Throw TypeError
  end.

(** [payload.choices && payload.choices[0]?.<inner>?.content] as a
    condition; [payload.choices] throws on a missing payload. *)
Definition has_content (payload : value) (inner : string) : result bool :=
  match get_field payload "choices" with
  | Throw e => Throw e
  | Ok choices =>
      if truthy choices then
        match get_index0 choices with
        | Throw e => Throw e
        | Ok first =>
            Ok (truthy (get_field_opt (get_field_opt first inner) "content"))
        end
      else Ok false
  end.

(** [payload.choices[0].<inner>.content], without optional chaining. *)
Definition read_content (payload : value) (inner : string) : result value :=
  match get_field payload "choices" with
  | Throw e => Throw e
  | Ok choices =>
      match get_index0 choices with
      | Throw e => Throw e
      | Ok first =>
          match get_field first inner with
          | Throw e => Throw e
          | Ok mid => get_field mid "content"
          end
      end
  end.

(** The closure installed by [sendChatCompletion] (lines 103-128). *)
Definition chat_handler (requestId : string) (p : promise) (stream : value)
    (onChunk : option observer) (fullResponse : string) (data : value)
    : M unit :=
  ty <~ lift (get_field data "type") ;;
  if strict_eq_str ty "error" then
    err <~ lift (get_field data "error") ;;
    msg <~ lift (error_message err) ;;
    emit (Reject p msg) ;;;
    delete_handler requestId
  else if strict_eq_str ty "stream_chunk" && truthy stream then
    chunk <~ lift (get_field data "data") ;;
    present <~ lift (has_content chunk "delta") ;;
    if present : bool then
      content <~ lift (read_content chunk "delta") ;;
      full <~ lift (concat_value fullResponse content) ;;
      set_handler requestId (ChatHandler p stream onChunk full) ;;;
      match onChunk with
      | Some f => emit (OnChunk f content)
      | None => ret tt
      end
    else ret tt
  else if strict_eq_str ty "stream_complete" && truthy stream then
    emit (Resolve p (VStr fullResponse)) ;;;
    delete_handler requestId
  else if strict_eq_str ty "completion" && negb (truthy stream) then
    completion <~ lift (get_field data "data") ;;
    present <~ lift (has_content completion "message") ;;
    (if present : bool then
       content <~ lift (read_content completion "message") ;;
       emit (Resolve p content)
     else emit (Resolve p completion)) ;;;
    delete_handler requestId
  else ret tt.

(** The closure installed by [ping] (lines 143-149). *)
Definition ping_handler (pingId : string) (p : promise) (data : value)
    : M unit :=
  ty <~ lift (get_field data "type") ;;
  if strict_eq_str ty "pong" then
    emit (ConsoleLog "Received pong") ;;;
    emit (Resolve p VUndefined) ;;;
    delete_handler pingId
  else ret tt.

Definition call_handler (id : string) (h : handler) (data : value) : M unit :=
  match h with
  | ChatHandler p stream onChunk fullResponse =>
      chat_handler id p stream onChunk fullResponse data
  | PingHandler p => ping_handler id p data
  end.

(** [handleMessage(data)] (lines 166-171). *)
Definition handleMessage (data : value) : M unit :=
  requestId <~ lift (get_field data "request_id") ;;
  fun c =>
    if truthy requestId then
      match requestId, lookup_handler requestId c with
      | VStr id, Some h => call_handler id h data c
      | _, _ => (Ok tt, c)
      end
    else (Ok tt, c).

(** *** Issuing operations *)

Definition with_default (v d : value) : value :=
  match v with
  | VUndefined => d
  | _ => v
  end.

Definition is_null (v : value) : bool :=
  match v with
  | VNull => true
  | _ => false
  end.

(** [obj[k] = v] on an object: an existing key keeps its place. *)
Fixpoint obj_set (k : string) (v : value) (fields : list (string * value))
    : list (string * value) :=
  match fields with
  | [] => [(k, v)]
  | (k', v') :: rest =>
      if String.eqb k k' then (k, v) :: rest
      else (k', v') :: obj_set k v rest
  end.

(** [{...base, ...extra}]. *)
Definition spread (base extra : list (string * value))
    : list (string * value) :=
  fold_left (fun acc kv => obj_set kv.1 kv.2 acc) extra base.

(** The names bound by the destructuring pattern of [sendChatCompletion]. *)
Definition named_options : list string :=
  ["model"; "messages"; "stream"; "temperature"; "maxTokens"; "onChunk"].

Definition rest_params (options : list (string * value))
    : list (string * value) :=
  List.filter (fun kv => negb (existsb (String.eqb kv.1) named_options))
              options.

(** The request message built at lines 83-97. *)
Definition build_request (requestId : string)
    (options : list (string * value)) : value :=
  let model := assoc "model" options in
  let messages := assoc "messages" options in
  let stream := with_default (assoc "stream" options) (VBool true) in
  let temperature := with_default (assoc "temperature" options) VNull in
  let maxTokens := with_default (assoc "maxTokens" options) VNull in
  let request :=
    spread [("type", VStr "chat_completion"); ("request_id", VStr requestId);
            ("model", model); ("messages", messages); ("stream", stream)]
           (rest_params options) in
  let request :=
    if is_null temperature then request
    else obj_set "temperature" temperature request in
  let request :=
    if is_null maxTokens then request
    else obj_set "max_tokens" maxTokens request in
  VObj request.

(** [sendChatCompletion(options)] (lines 69-134).  The data fields of
    [options] are given as an object, the [onChunk] function apart;
    [draws] are the values [Math.random] returns during the call. *)
Definition sendChatCompletion (options : list (string * value))
    (onChunk : option observer) (draws : nat -> Q) : M promise :=
  let stream := with_default (assoc "stream" options) (VBool true) in
  let requestId := generateUUID draws in
  let request := build_request requestId options in
  p <~ new_promise ;;
  set_handler requestId (ChatHandler p stream onChunk EmptyString) ;;;
  emit (WsSend request) ;;;
  emit (ConsoleLog ("Sent request " +:+ requestId)) ;;;
  ret p.

(** The timer callback of [ping] (lines 154-159). *)
Definition on_timeout (t : timer) : M unit :=
  fun c =>
    match messageHandlers c !! pingId t with
    | Some _ =>
        (delete_handler (pingId t) ;;;
         emit (Reject (ping_promise t) "Ping timeout")) c
    | None => (Ok tt, c)
    end.

(** [ping()] (lines 139-161). *)
Definition ping (draws : nat -> Q) : M promise :=
  p <~ new_promise ;;
  let pingId := generateUUID draws in
  set_handler pingId (PingHandler p) ;;;
  emit (WsSend (VObj [("type", VStr "ping"); ("request_id", VStr pingId)])) ;;;
  set_timeout (Timer pingId p) ;;;
  ret p.

(** The [k]-th armed timer expires: it leaves the set of armed timers and
    its callback runs. *)
Definition expire (k : nat) : M unit :=
  fun c =>
    match timers c !! k with
    | None => (Ok tt, c)
    | Some t =>
        on_timeout t (Client (messageHandlers c) (delete k (timers c))
                             (promises c) (trace c))
    end.

(** [new LiteLLMWebSocketClient(url, apiKey)], once connected. *)
Definition initial : client := Client ∅ [] 0 [].

(** *** The event loop *)

Inductive event : Type :=
  | CallSend (options : list (string * value)) (onChunk : option observer)
             (draws : nat -> Q)
  | CallPing (draws : nat -> Q)
  | Message (data : value)       (* ws.onmessage, after JSON.parse *)
  | Expire (k : nat).

(** One turn of the event loop; an exception that escapes a turn does not
    undo what the turn did before. *)
Definition step (c : client) (e : event) : client :=
  match e with
  | CallSend options onChunk draws =>
      (sendChatCompletion options onChunk draws c).2
  | CallPing draws => (ping draws c).2
  | Message data => (handleMessage data c).2
  | Expire k => (expire k c).2
  end.

Definition run (c : client) (es : list event) : client :=
  fold_left step es c.

(** Identifiers handed out during a run, oldest first. *)
Definition issued (es : list event) : list string :=
  omap (fun e => match e with
                 | CallSend _ _ draws | CallPing draws =>
                     Some (generateUUID draws)
                 | _ => None
                 end) es.

(** *** Observations on the trace *)

Definition settles (p : promise) (e : effect) : bool :=
  match e with
  | Resolve q _ | Reject q _ => Nat.eqb p q
  | _ => false
  end.

(** Number of calls of [resolve] or [reject] of promise [p]. *)
Definition settle_calls (p : promise) (tr : list effect) : nat :=
  length (List.filter (settles p) tr).

Inductive settlement : Type :=
  | Fulfilled (v : value)
  | Rejected (message : string).

(** State of promise [p]: the first call settles it, later calls are
    ignored; [None] is pending. *)
Fixpoint promise_state (p : promise) (tr : list effect) : option settlement :=
  match tr with
  | [] => None
  | Resolve q v :: rest =>
      if Nat.eqb p q then Some (Fulfilled v) else promise_state p rest
  | Reject q m :: rest =>
      if Nat.eqb p q then Some (Rejected m) else promise_state p rest
  | _ :: rest => promise_state p rest
  end.

(** *** Inbound frames of the wire protocol *)

Definition frame (ty id : string) (more : list (string * value)) : value :=
  VObj (("type", VStr ty) :: ("request_id", VStr id) :: more).

Definition delta_payload (content : value) : value :=
  VObj [("choices", VArr [VObj [("delta", VObj [("content", content)])]])].

Definition message_payload (content : value) : value :=
  VObj [("choices", VArr [VObj [("message", VObj [("content", content)])]])].

Definition stream_chunk (id text : string) : value :=
  frame "stream_chunk" id [("data", delta_payload (VStr text))].

Definition stream_complete (id : string) : value :=
  frame "stream_complete" id [].

Definition completion (id : string) (payload : value) : value :=
  frame "completion" id [("data", payload)].

Definition error_frame (id message : string) : value :=
  frame "error" id [("error", VStr message)].

Definition pong (id : string) : value :=
  frame "pong" id [].

(** *** Shapes of the state after a turn *)

(** The exchange [id] ended: its entry is gone and [es] was emitted. *)
Definition settled (id : string) (es : list effect) (c : client) : client :=
  Client (delete id (messageHandlers c)) (timers c) (promises c)
         (trace c ++ es).

(** The closure of [id] is now [h] and [es] was emitted. *)
Definition accumulated (id : string) (h : handler) (es : list effect)
    (c : client) : client :=
  Client (<[id := h]> (messageHandlers c)) (timers c) (promises c)
         (trace c ++ es).

(** The [k]-th armed timer has left the set of armed timers. *)
Definition disarmed (k : nat) (c : client) : client :=
  Client (messageHandlers c) (delete k (timers c)) (promises c) (trace c).

Definition observer_calls (onChunk : option observer) (content : value)
    : list effect :=
  match onChunk with
  | Some f => [OnChunk f content]
  | None => []
  end.

(** The effects a closure can cause are calls of what it captured. *)
Definition owned_by (h : handler) (e : effect) : Prop :=
  match e with
  | Resolve p _ | Reject p _ => p = handler_promise h
  | OnChunk f _ => exists p stream full, h = ChatHandler p stream (Some f) full
  | ConsoleLog line => exists p, h = PingHandler p /\ line = "Received pong"
  | WsSend _ => False
  end.

(** Bookkeeping that ties a state to the identifiers handed out so far
    ([ids], indexed by promise): every registered closure and every armed
    timer belongs to the promise created together with its identifier, and
    the promise of a registered closure has not been settled. *)
Record consistent (ids : list string) (c : client) : Prop := Consistent {
  consistent_count : promises c = length ids;
  consistent_handler : forall id h,
    messageHandlers c !! id = Some h ->
    ids !! handler_promise h = Some id /\
    settle_calls (handler_promise h) (trace c) = 0%nat;
  consistent_timer : forall t,
    t ∈ timers c -> ids !! ping_promise t = Some (pingId t);
  consistent_unborn : forall p,
    (length ids <= p)%nat -> settle_calls p (trace c) = 0%nat;
}.

(** What running a registered closure on a frame can do to the client. *)
Inductive reaction (id : string) (h : handler) (c : client)
    : result unit * client -> Prop :=
  | react_throw e : reaction id h c (Throw e, c)
  | react_ignore : reaction id h c (Ok tt, c)
  | react_settle pre e :
      Forall (fun e' => forall p, settles p e' = false) pre ->
      Forall (owned_by h) (pre ++ [e]) ->
      settles (handler_promise h) e = true ->
      reaction id h c (Ok tt, settled id (pre ++ [e]) c)
  | react_chunk p stream onChunk full full' content :
      h = ChatHandler p stream onChunk full ->
      reaction id h c
        (Ok tt, accumulated id (ChatHandler p stream onChunk full')
                            (observer_calls onChunk content) c).

(** A fixed sequence of draws, for closed examples: every draw is 1/2, so
    the identifier is ["88888888-8888-4888-8888-888888888888"]. *)
Definition sample_draws : nat -> Q := fun _ => (1 # 2)%Q.

Definition sample_id : string := "88888888-8888-4888-8888-888888888888".

(** *** Streams of fragments *)

Definition nonempty (s : string) : bool := negb (String.eqb s "").

(** The fragments in arrival order, joined. *)
Definition concatenation (texts : list string) : string :=
  foldr String.append EmptyString texts.

(** The frames of one streamed answer: a chunk per fragment, then the end. *)
Definition stream_frames (id : string) (texts : list string) : list event :=
  map (fun text => Message (stream_chunk id text)) texts ++
  [Message (stream_complete id)].

(** Observer calls for the fragments: one per non-empty fragment. *)
Definition observed (onChunk : option observer) (texts : list string)
    : list effect :=
  flat_map (fun text => observer_calls onChunk (VStr text))
           (List.filter nonempty texts).

(** What a unary exchange resolves with on a [completion] frame carrying
    [payload]: the message content when it can be read and is truthy, the
    payload itself otherwise. *)
Definition unary_answer (payload : value) : value :=
  match read_content payload "message" with
  | Ok content => if truthy content then content else payload
  | Throw _ => payload
  end.

(** *** Reading a request message *)

(** Whether an object has an own property [k]. *)
Definition has_key (k : string) (fields : list (string * value)) : bool :=
  existsb (fun kv => String.eqb k kv.1) fields.

(** Property names of an object, in order. *)
Definition keys (fields : list (string * value)) : list string :=
  map fst fields.

(** *** Events seen from one exchange *)

(** An event that leaves the exchange [id] alone: a frame that does not
    bear [id], a call that issues another identifier, or a timer. *)
Definition quiet (id : string) (e : event) : Prop :=
  match e with
  | Message data => get_field data "request_id" <> Ok (VStr id)
  | CallSend _ _ draws | CallPing draws => generateUUID draws <> id
  | Expire _ => True
  end.

(** [zs] is a merge of [xs] and [ys] that keeps the order of each. *)
Inductive interleaved {A : Type} : list A -> list A -> list A -> Prop :=
  | interleaved_nil : interleaved [] [] []
  | interleaved_left x xs ys zs :
      interleaved xs ys zs -> interleaved (x :: xs) ys (x :: zs)
  | interleaved_right y xs ys zs :
      interleaved xs ys zs -> interleaved xs (y :: ys) (y :: zs).

(** A closure that shares its promise with an armed timer is a heartbeat
    closure. *)
Definition timers_are_heartbeats (c : client) : Prop :=
  forall t id h,
    t ∈ timers c ->
    messageHandlers c !! id = Some h ->
    handler_promise h = ping_promise t ->
    exists p, h = PingHandler p.

(** An armed timer whose exchange has left the registry belongs to a
    promise that is already settled. *)
Definition timers_cover_pending (c : client) : Prop :=
  forall t,
    t ∈ timers c ->
    messageHandlers c !! pingId t = None ->
    (1 <= settle_calls (ping_promise t) (trace c))%nat.

(** No closure and no timer holds promise [p] any more. *)
Definition orphaned (p : promise) (c : client) : Prop :=
  (p < promises c)%nat /\
  (forall id h, messageHandlers c !! id = Some h -> handler_promise h <> p) /\
  (forall t, t ∈ timers c -> ping_promise t <> p).

(** *** Calls made before [connect] *)

(** [this.ws.send(text)]: [connected] tells whether [connect] has stored a
    socket in [this.ws]; on the initial [null] the property read throws. *)
Definition ws_send (connected : bool) (request : value) : M unit :=
  if connected then emit (WsSend request) else lift (Throw TypeError).

(** [new Promise(executor)]: an exception that escapes the executor
    rejects the promise with it; [thrown] is the message of that exception
    (its wording is the engine's). *)
Definition executor (p : promise) (thrown : string) (body : M unit)
    : M unit :=
  fun c => match body c with
           | (Ok u, c') => (Ok u, c')
           | (Throw _, c') => emit (Reject p thrown) c'
           end.

(** [sendChatCompletion(options)] with the state of [this.ws] explicit. *)
Definition sendChatCompletion_on (connected : bool) (thrown : string)
    (options : list (string * value)) (onChunk : option observer)
    (draws : nat -> Q) : M promise :=
  let stream := with_default (assoc "stream" options) (VBool true) in
  let requestId := generateUUID draws in
  let request := build_request requestId options in
  p <~ new_promise ;;
  executor p thrown
    (set_handler requestId (ChatHandler p stream onChunk EmptyString) ;;;
     ws_send connected request ;;;
     emit (ConsoleLog ("Sent request " +:+ requestId))) ;;;
  ret p.

(** [ping()] with the state of [this.ws] explicit. *)
Definition ping_on (connected : bool) (thrown : string) (draws : nat -> Q)
    : M promise :=
  p <~ new_promise ;;
  executor p thrown
    (let pingId := generateUUID draws in
     set_handler pingId (PingHandler p) ;;;
     ws_send connected
       (VObj [("type", VStr "ping"); ("request_id", VStr pingId)]) ;;;
     set_timeout (Timer pingId p)) ;;;
  ret p.

Definition is_observer_call (e : effect) : bool :=
  match e with
  | OnChunk _ _ => true
  | _ => false
  end.

(** *** Observers that may throw, sends that may fail *)

(** What happens when the closure evaluates [onChunk(content)]: the
    function returns; it throws; or [onChunk] is a truthy value that is not
    a function, and the call itself throws. *)
Inductive callee : Type :=
  | Returns
  | Raises
  | NotCallable.

(** How the observers behave: the outcome of a call may depend on the
    observer, on the argument and on everything that has happened so far
    (the log of effects at the time of the call). *)
Definition conduct : Type := list effect -> observer -> value -> callee.

(** [if (onChunk) { onChunk(content); }], with the observers' behaviour
    given.  The kind of exception a throwing observer raises is not
    tracked. *)
Definition call_observer (behaviour : conduct)
    (onChunk : option observer) (content : value) : M unit :=
  match onChunk with
  | None => ret tt
  | Some f =>
      fun c =>
        match behaviour (trace c) f content with
        | Returns => emit (OnChunk f content) c
        | Raises => (emit (OnChunk f content) ;;; lift (Throw TypeError)) c
        | NotCallable => lift (Throw TypeError) c
        end
  end.

(** The closure installed by [sendChatCompletion] (lines 103-128), with the
    observer's behaviour given. *)
Definition chat_handler_with (behaviour : conduct)
    (requestId : string) (p : promise) (stream : value)
    (onChunk : option observer) (fullResponse : string) (data : value)
    : M unit :=
  ty <~ lift (get_field data "type") ;;
  if strict_eq_str ty "error" then
    err <~ lift (get_field data "error") ;;
    msg <~ lift (error_message err) ;;
    emit (Reject p msg) ;;;
    delete_handler requestId
  else if strict_eq_str ty "stream_chunk" && truthy stream then
    chunk <~ lift (get_field data "data") ;;
    present <~ lift (has_content chunk "delta") ;;
    if present : bool then
      content <~ lift (read_content chunk "delta") ;;
      full <~ lift (concat_value fullResponse content) ;;
      set_handler requestId (ChatHandler p stream onChunk full) ;;;
      call_observer behaviour onChunk content
    else ret tt
  else if strict_eq_str ty "stream_complete" && truthy stream then
    emit (Resolve p (VStr fullResponse)) ;;;
    delete_handler requestId
  else if strict_eq_str ty "completion" && negb (truthy stream) then
    completion <~ lift (get_field data "data") ;;
    present <~ lift (has_content completion "message") ;;
    (if present : bool then
       content <~ lift (read_content completion "message") ;;
       emit (Resolve p content)
     else emit (Resolve p completion)) ;;;
    delete_handler requestId
  else ret tt.

Definition call_handler_with (behaviour : conduct)
    (id : string) (h : handler) (data : value) : M unit :=
  match h with
  | ChatHandler p stream onChunk fullResponse =>
      chat_handler_with behaviour id p stream onChunk fullResponse data
  | PingHandler p => ping_handler id p data
  end.

(** [handleMessage(data)] (lines 166-171), with the observers' behaviour
    given. *)
Definition handleMessage_with (behaviour : conduct)
    (data : value) : M unit :=
  requestId <~ lift (get_field data "request_id") ;;
  fun c =>
    if truthy requestId then
      match requestId, lookup_handler requestId c with
      | VStr id, Some h => call_handler_with behaviour id h data c
      | _, _ => (Ok tt, c)
      end
    else (Ok tt, c).

(** A turn of the event loop in which the statement
    [this.ws.send(JSON.stringify(...))] may throw ([sent = false]; [thrown]
    is the message of the exception): [this.ws] is [null] before [connect],
    and a socket that is not open refuses to send. *)
Inductive turn : Type :=
  | TurnSend (sent : bool) (thrown : string)
             (options : list (string * value)) (onChunk : option observer)
             (draws : nat -> Q)
  | TurnPing (sent : bool) (thrown : string) (draws : nat -> Q)
  | TurnMessage (data : value)
  | TurnExpire (k : nat).

Definition take (behaviour : conduct) (c : client)
    (t : turn) : client :=
  match t with
  | TurnSend sent thrown options onChunk draws =>
      (sendChatCompletion_on sent thrown options onChunk draws c).2
  | TurnPing sent thrown draws => (ping_on sent thrown draws c).2
  | TurnMessage data => (handleMessage_with behaviour data c).2
  | TurnExpire k => (expire k c).2
  end.

Definition play (behaviour : conduct) (c : client)
    (ts : list turn) : client :=
  fold_left (take behaviour) ts c.

(** Identifiers handed out during the turns, indexed by promise. *)
Definition handed_out (ts : list turn) : list string :=
  omap (fun t => match t with
                 | TurnSend _ _ _ _ draws | TurnPing _ _ draws =>
                     Some (generateUUID draws)
                 | _ => None
                 end) ts.

(** Whether the request of each promise went out. *)
Definition went_out (ts : list turn) : list bool :=
  omap (fun t => match t with
                 | TurnSend sent _ _ _ _ | TurnPing sent _ _ => Some sent
                 | _ => None
                 end) ts.

(** What a frame can do to the client through the closure [h] registered
    under [id]: nothing, end the exchange with one settling call, or update
    the accumulated answer. *)
Inductive touched (id : string) (h : handler) (c : client)
    : client -> Prop :=
  | touched_not : touched id h c c
  | touched_settled pre e :
      Forall (fun e' => forall p, settles p e' = false) pre ->
      settles (handler_promise h) e = true ->
      touched id h c (settled id (pre ++ [e]) c)
  | touched_accumulated p stream onChunk full full' tr :
      h = ChatHandler p stream onChunk full ->
      Forall (fun e' => forall q, settles q e' = false) tr ->
      touched id h c
        (accumulated id (ChatHandler p stream onChunk full') tr c).

(** Bookkeeping for runs with failed sends: as [consistent], with the
    promise of a registered closure pending when its request went out, and
    timers armed only for requests that went out. *)
Record sound (ids : list string) (ok : list bool) (c : client)
    : Prop := Sound {
  sound_count : promises c = length ids /\ length ok = length ids;
  sound_handler : forall id h,
    messageHandlers c !! id = Some h ->
    ids !! handler_promise h = Some id /\
    (ok !! handler_promise h = Some true ->
     settle_calls (handler_promise h) (trace c) = 0%nat);
  sound_timer : forall t,
    t ∈ timers c ->
    ids !! ping_promise t = Some (pingId t) /\
    ok !! ping_promise t = Some true;
  sound_unborn : forall p,
    (length ids <= p)%nat -> settle_calls p (trace c) = 0%nat;
}.


End Client.

(** ** Transport handling ([connect], [disconnect]) *)

Module Connection.

(** [typeof window === 'undefined'] tells Node.js from a browser. *)
Inductive environment : Type :=
  | NodeJs
  | Browser.

(** A call [new WebSocket(url, { headers })] (Node.js, the [ws] library)
    or [new WebSocket(url)] (browser, no options). *)
Record socket : Type := Socket {
  socket_url : string;
  socket_headers : option (list (string * value));
}.

(** [this.ws], the sockets created so far (a socket is named by its
    position) and the sockets [close()] was called on, in call order. *)
Record link : Type := Link {
  ws : option nat;
  sockets : list socket;
  closed : list nat;
}.

(** The constructor: [this.ws = null]. *)
Definition unconnected : link := Link None [] [].

(** The [headers] object built under Node.js (lines 26-29). *)
Definition auth_headers (apiKey : value)
    : result (list (string * value)) :=
  if truthy apiKey then
    match to_string apiKey with
    | Some key => Ok [("Authorization", VStr ("Bearer " +:+ key))]
    | None => Throw TypeError
    end
  else Ok [].

(** The synchronous part of [connect()] (lines 19-34): the socket is
    created and stored in [this.ws].  An exception leaves [this.ws] as it
    was (the promise executor turns it into a rejection).  The [ws]
    library is taken to be installed and the URL to be accepted by the
    [WebSocket] constructor. *)
Definition connect (env : environment) (url : string) (apiKey : value)
    (l : link) : result unit * link :=
  match env with
  | NodeJs =>
      match auth_headers apiKey with
      | Ok headers =>
          (Ok tt, Link (Some (length (sockets l)))
                       (sockets l ++ [Socket url (Some headers)])
                       (closed l))
      | Throw e => (Throw e, l)
      end
  | Browser =>
      (Ok tt, Link (Some (length (sockets l)))
                   (sockets l ++ [Socket url None]) (closed l))
  end.

(** [disconnect()] (lines 60-64). *)
Definition disconnect (l : link) : link :=
  match ws l with
  | Some n => Link (ws l) (sockets l) (closed l ++ [n])
  | None => l
  end.

Inductive call : Type :=
  | Connect (env : environment) (url : string) (apiKey : value)
  | Disconnect.

Definition perform (l : link) (c : call) : link :=
  match c with
  | Connect env url apiKey => (connect env url apiKey l).2
  | Disconnect => disconnect l
  end.

Definition perform_all (l : link) (cs : list call) : link :=
  fold_left perform cs l.

(** [this.ws] is the socket created last, if any was created. *)
Definition current (l : link) : Prop :=
  ws l = (if sockets l is [] then None
          else Some (length (sockets l) - 1)%nat).

End Connection.

(** * Properties *)

(** ** Identifier generator *)

Module UuidFacts.
Import Uuid.

Lemma Qtrunc_unit_draw (x : Q) :
  unit_draw x -> 0 <= Qtrunc (x * 16) < 16.
Proof.
  destruct x as [n d]. unfold unit_draw, Qle, Qlt, Qtrunc. cbn.
  intros [H0 H1].
  rewrite Pos.mul_1_r, Z.quot_div_nonneg by lia.
  split.
  - apply Z.div_pos; lia.
  - apply Z.div_lt_upper_bound; lia.
Qed.

Lemma to_int32_small (z : Z) : 0 <= z < 16 -> to_int32 z = z.
Proof.
  intros H. unfold to_int32. rewrite Z.mod_small; lia.
Qed.

Lemma small_cases (z : Z) :
  0 <= z < 16 ->
  z = 0 \/ z = 1 \/ z = 2 \/ z = 3 \/ z = 4 \/ z = 5 \/ z = 6 \/ z = 7 \/
  z = 8 \/ z = 9 \/ z = 10 \/ z = 11 \/ z = 12 \/ z = 13 \/ z = 14 \/ z = 15.
Proof. lia. Qed.

Ltac each_small H :=
  repeat (destruct H as [-> | H]; [eexists; split; reflexivity |]);
  subst; eexists; split; reflexivity.

(** An [x] of the template becomes one hexadecimal digit. *)
Lemma replacer_x (x : Q) :
  unit_draw x ->
  exists c, replacer "x" x = String c EmptyString /\ is_hex c = true.
Proof.
  intros H. unfold replacer.
  pose proof (Qtrunc_unit_draw x H) as Hr.
  generalize dependent (Qtrunc (x * 16)). intros r Hr.
  rewrite to_int32_small by exact Hr.
  change (Ascii.eqb "x" "x") with true. cbv iota.
  apply small_cases in Hr. each_small Hr.
Qed.

(** The [y] of the template becomes one of 8, 9, a, b. *)
Lemma replacer_y (x : Q) :
  unit_draw x ->
  exists c, replacer "y" x = String c EmptyString /\ is_variant c = true.
Proof.
  intros H. unfold replacer.
  pose proof (Qtrunc_unit_draw x H) as Hr.
  generalize dependent (Qtrunc (x * 16)). intros r Hr.
  rewrite to_int32_small by exact Hr.
  change (Ascii.eqb "y" "x") with false. cbv iota.
  apply small_cases in Hr. each_small Hr.
Qed.

(** C8: whatever [Math.random] returns, [generateUUID] returns (the
    embedding is a total function with no throwing step) a string of 36
    characters in the 8-4-4-4-12 layout: hexadecimal digits separated by
    hyphens, version digit 4, variant digit among 8, 9, a, b. *)
Theorem generateUUID_layout (draws : nat -> Q) :
  (forall k, unit_draw (draws k)) ->
  uuid_v4_layout (generateUUID draws) = true /\
  String.length (generateUUID draws) = 36%nat.
Proof.
  intros Hd. unfold generateUUID, template, uuid_v4_layout.
  cbn [replace_xy Ascii.eqb Bool.eqb orb andb].
  repeat match goal with
  | |- context [replacer "x" (draws ?k)] =>
      let c := fresh "c" in let E := fresh "E" in let Hc := fresh "Hc" in
      destruct (replacer_x (draws k) (Hd k)) as (c & E & Hc); rewrite E; clear E
  | |- context [replacer "y" (draws ?k)] =>
      let c := fresh "c" in let E := fresh "E" in let Hc := fresh "Hc" in
      destruct (replacer_y (draws k) (Hd k)) as (c & E & Hc); rewrite E; clear E
  end.
  cbv [String.append layout_from String.length].
  split; [| reflexivity].
  unfold char_ok. cbn [existsb Nat.eqb orb].
  repeat match goal with
  | H : _ = true |- _ => rewrite H; clear H
  end.
  reflexivity.
Qed.

Lemma generateUUID_layout_witness :
  uuid_v4_layout (generateUUID (fun _ => 1 # 2)%Q) = true /\
  String.length (generateUUID (fun _ => 1 # 2)%Q) = 36%nat.
Proof.
  apply generateUUID_layout. intros _. split; [discriminate | reflexivity].
Defined.

Lemma length_append (a b : string) :
  String.length (a +:+ b) = (String.length a + String.length b)%nat.
Proof.
  induction a as [| c a IH]; [reflexivity |].
  change (String c a +:+ b) with (String c (a +:+ b)).
  cbn [String.length]. by rewrite IH.
Qed.

Lemma replace_xy_length (s : string) (draws : nat -> Q) (k : nat) :
  (copied s <= String.length (replace_xy s draws k))%nat.
Proof.
  revert k. induction s as [| c rest IH]; intros k; cbn [replace_xy copied].
  - reflexivity.
  - destruct (Ascii.eqb c "x" || Ascii.eqb c "y").
    + rewrite length_append. specialize (IH (S k)). lia.
    + cbn [String.length]. specialize (IH k). lia.
Qed.

(** No identifier is the empty string, whatever the draws. *)
Lemma generateUUID_nonempty (draws : nat -> Q) :
  generateUUID draws <> EmptyString.
Proof.
  unfold generateUUID. intros E.
  assert (copied template <= 0)%nat as H.
  { etrans; [apply (replace_xy_length template draws 0) |].
    apply Nat.eq_le_incl. exact (f_equal String.length E). }
  revert H. generalize (eq_refl : copied template = 5%nat).
  intros ->. lia.
Qed.

Example sample_id_generated :
  generateUUID Client.sample_draws = Client.sample_id.
Proof. reflexivity. Qed.

Example generateUUID_top_draws :
  generateUUID (fun _ => 999 # 1000)%Q = "ffffffff-ffff-4fff-bfff-ffffffffffff".
Proof. reflexivity. Qed.

End UuidFacts.

(** ** Correlation engine *)

Module ClientFacts.
Import Uuid UuidFacts Client.

#[local] Arguments settle_calls : simpl never.
#[local] Arguments generateUUID : simpl never.
#[local] Arguments build_request : simpl never.

Lemma settle_calls_app (p : promise) (tr tr' : list effect) :
  settle_calls p (tr ++ tr') = (settle_calls p tr + settle_calls p tr')%nat.
Proof.
  unfold settle_calls. by rewrite List.filter_app, length_app.
Qed.

Lemma settles_same (p q : promise) (e : effect) :
  settles p e = true -> settles q e = true -> p = q.
Proof.
  destruct e; cbn; try discriminate;
    intros ?%Nat.eqb_eq ?%Nat.eqb_eq; congruence.
Qed.

Lemma call_handler_reaction (id : string) (h : handler) (data : value)
    (c : client) :
  reaction id h c (call_handler id h data c).
Proof.
  destruct h as [p stream onChunk full | p];
    unfold call_handler, chat_handler, ping_handler, bind, lift, emit,
      delete_handler, set_handler, ret;
    repeat case_match; simplify_eq/=;
    try (by constructor).
  all: try (apply (react_settle id _ c []);
            [by constructor | | by cbn; rewrite ?Nat.eqb_refl];
            by repeat constructor).
  - exact (react_chunk id _ c p stream (Some o) full a3 a2 eq_refl).
  - pose proof (react_chunk id _ c p stream None full a3 a2 eq_refl) as R.
    unfold accumulated in R. cbn in R. by rewrite app_nil_r in R.
  - rewrite <- app_assoc.
    apply (react_settle id _ c [ConsoleLog "Received pong"]);
      [by repeat constructor | | by cbn; rewrite Nat.eqb_refl].
    repeat constructor; cbn; eauto.
Qed.

Lemma handleMessage_dispatch (data : value) (c : client) (id : string)
    (h : handler) :
  get_field data "request_id" = Ok (VStr id) ->
  id <> EmptyString ->
  messageHandlers c !! id = Some h ->
  handleMessage data c = call_handler id h data c.
Proof.
  intros Hid Hne Hh. unfold handleMessage, bind, lift. rewrite Hid. cbn.
  destruct (String.eqb_spec id "") as [-> | _]; [done |]. cbn.
  by rewrite Hh.
Qed.

Lemma handleMessage_drop (data : value) (c : client) (rid : value) :
  get_field data "request_id" = Ok rid ->
  lookup_handler rid c = None ->
  handleMessage data c = (Ok tt, c).
Proof.
  intros Hid Hh. unfold handleMessage, bind, lift. rewrite Hid.
  destruct (truthy rid); [| done].
  destruct rid; try done. cbn in *. by rewrite Hh.
Qed.

Lemma handleMessage_reaction (data : value) (c : client) :
  (handleMessage data c).2 = c \/
  exists id h, messageHandlers c !! id = Some h /\
               reaction id h c (handleMessage data c).
Proof.
  unfold handleMessage, bind, lift.
  destruct (get_field data "request_id") as [rid | e]; [| by left].
  destruct (truthy rid); [| by left].
  destruct rid as [| | | | id | |]; try by left.
  cbn. destruct (messageHandlers c !! id) as [h |] eqn:Hh; [| by left].
  right. exists id, h. split; [done |]. apply call_handler_reaction.
Qed.

Lemma run_snoc (c : client) (es : list event) (e : event) :
  run c (es ++ [e]) = step (run c es) e.
Proof. unfold run. by rewrite fold_left_app. Qed.

Lemma issued_app (es es' : list event) :
  issued (es ++ es') = issued es ++ issued es'.
Proof. unfold issued. by rewrite omap_app. Qed.

Lemma silent_calls (p : promise) (tr : list effect) :
  Forall (fun e => forall q, settles q e = false) tr ->
  settle_calls p tr = 0%nat.
Proof.
  induction 1 as [| e tr He _ IH]; [done |].
  unfold settle_calls in *. cbn. by rewrite He.
Qed.

Lemma observer_calls_silent (onChunk : option observer) (content : value) :
  Forall (fun e => forall q, settles q e = false)
         (observer_calls onChunk content).
Proof. destruct onChunk; by repeat constructor. Qed.

Lemma settle_calls_one (p : promise) (e : effect) :
  settle_calls p [e] = if settles p e then 1%nat else 0%nat.
Proof. unfold settle_calls. cbn. by destruct (settles p e). Qed.

Lemma settle_calls_other (p q : promise) (e : effect) :
  settles q e = true -> p <> q -> settle_calls p [e] = 0%nat.
Proof.
  intros Hq Hne. rewrite settle_calls_one.
  destruct (settles p e) eqn:Hp; [| done].
  by destruct Hne; eapply settles_same.
Qed.

Lemma sendChatCompletion_eq (options : list (string * value))
    (onChunk : option observer) (draws : nat -> Q) (c : client) :
  sendChatCompletion options onChunk draws c =
  (Ok (promises c),
   Client (<[generateUUID draws :=
               ChatHandler (promises c)
                 (with_default (assoc "stream" options) (VBool true))
                 onChunk EmptyString]> (messageHandlers c))
          (timers c) (S (promises c))
          (trace c ++ [WsSend (build_request (generateUUID draws) options);
                       ConsoleLog ("Sent request " +:+ generateUUID draws)])).
Proof.
  unfold sendChatCompletion, bind, new_promise, set_handler, emit, ret.
  cbn -[generateUUID build_request]. by rewrite <- app_assoc.
Qed.

Lemma ping_eq (draws : nat -> Q) (c : client) :
  ping draws c =
  (Ok (promises c),
   Client (<[generateUUID draws := PingHandler (promises c)]>
             (messageHandlers c))
          (timers c ++ [Timer (generateUUID draws) (promises c)])
          (S (promises c))
          (trace c ++ [WsSend (VObj [("type", VStr "ping");
                                     ("request_id",
                                      VStr (generateUUID draws))])])).
Proof. reflexivity. Qed.

Lemma consistent_step (ids : list string) (c : client) (e : event) :
  consistent ids c -> consistent (ids ++ issued [e]) (step c e).
Proof.
  intros [Hn Hh Ht Hu].
  destruct e as [options onChunk draws | draws | data | k].
  - (* sendChatCompletion *)
    unfold step. rewrite sendChatCompletion_eq.
    cbn -[generateUUID build_request settle_calls].
    split; cbn -[generateUUID build_request settle_calls].
    + rewrite length_app. cbn. lia.
    + intros id h. rewrite lookup_insert. case_decide as Hid.
      * intros [= <-]. cbn. subst id. split.
        { rewrite Hn. by rewrite lookup_app_r, Nat.sub_diag. }
        rewrite settle_calls_app. rewrite Hu by lia. done.
      * intros Hl. destruct (Hh _ _ Hl) as [Hi Hs]. split.
        { by apply lookup_app_l_Some. }
        rewrite settle_calls_app, Hs. done.
    + intros t Hin. by apply lookup_app_l_Some, Ht.
    + intros p. rewrite length_app. cbn. intros Hp.
      rewrite settle_calls_app, Hu by lia. done.
  - (* ping *)
    unfold step. rewrite ping_eq.
    cbn -[generateUUID settle_calls].
    split; cbn -[generateUUID settle_calls].
    + rewrite length_app. cbn. lia.
    + intros id h. rewrite lookup_insert. case_decide as Hid.
      * intros [= <-]. cbn. subst id. split.
        { rewrite Hn. by rewrite lookup_app_r, Nat.sub_diag. }
        rewrite settle_calls_app. rewrite Hu by lia. done.
      * intros Hl. destruct (Hh _ _ Hl) as [Hi Hs]. split.
        { by apply lookup_app_l_Some. }
        rewrite settle_calls_app, Hs. done.
    + intros t [Hin | ->%list_elem_of_singleton]%elem_of_app.
      * by apply lookup_app_l_Some, Ht.
      * cbn. rewrite Hn. by rewrite lookup_app_r, Nat.sub_diag.
    + intros p. rewrite length_app. cbn. intros Hp.
      rewrite settle_calls_app, Hu by lia. done.
  - (* handleMessage *)
    cbn [issued omap step]. rewrite app_nil_r.
    destruct (handleMessage_reaction data c) as [-> | (id & h & Hl & R)];
      [by split |].
    destruct (Hh _ _ Hl) as [Hi Hs].
    inversion R as [e E | E | pre e Hpre Hown He E | p s o full full' v -> E];
      cbn; try by split.
    + split; cbn; [done | | done |].
      * intros id' h'. rewrite lookup_delete. case_decide as Hid; [done |].
        intros Hl'. destruct (Hh _ _ Hl') as [Hi' Hs']. split; [done |].
        rewrite !settle_calls_app, Hs', (silent_calls _ pre Hpre).
        rewrite (settle_calls_other _ _ _ He); [done |]. congruence.
      * intros p Hp.
        rewrite !settle_calls_app, Hu, (silent_calls _ pre Hpre) by done.
        rewrite (settle_calls_other _ _ _ He); [done |].
        apply lookup_lt_Some in Hi. lia.
    + split; cbn; [done | | done |].
      * intros id' h'. rewrite lookup_insert. case_decide as Hid.
        { intros [= <-]. subst id'. cbn in *. split; [done |].
          by rewrite settle_calls_app, Hs, silent_calls
            by apply observer_calls_silent. }
        intros Hl'. destruct (Hh _ _ Hl') as [Hi' Hs']. split; [done |].
        by rewrite settle_calls_app, Hs', silent_calls
          by apply observer_calls_silent.
      * intros q Hq.
        by rewrite settle_calls_app, Hu, silent_calls
          by (done || apply observer_calls_silent).
  - (* timer *)
    cbn [issued omap step]. rewrite app_nil_r. unfold expire.
    destruct (timers c !! k) as [t |] eqn:Hk; [| by split].
    assert (Hin : t ∈ timers c) by by eapply list_elem_of_lookup_2.
    assert (Hsub : forall t', t' ∈ delete k (timers c) -> t' ∈ timers c).
    { intros t'. apply list_elem_of_delete_inv. }
    unfold on_timeout. cbn.
    destruct (messageHandlers c !! pingId t) as [h |] eqn:Hl; cbn.
    + split; cbn; [done | | by eauto |].
      * intros id' h'. rewrite lookup_delete. case_decide as Hid; [done |].
        intros Hl'. destruct (Hh _ _ Hl') as [Hi' Hs']. split; [done |].
        rewrite settle_calls_app, Hs'.
        rewrite (settle_calls_other _ (ping_promise t)); [done | |].
        { cbn. by rewrite Nat.eqb_refl. }
        intros E. rewrite E, (Ht _ Hin) in Hi'. congruence.
      * intros p Hp. rewrite settle_calls_app, Hu by done.
        rewrite (settle_calls_other _ (ping_promise t)); [done | |].
        { cbn. by rewrite Nat.eqb_refl. }
        pose proof (lookup_lt_Some _ _ _ (Ht _ Hin)). lia.
    + split; cbn; by eauto.
Qed.

Lemma consistent_initial : consistent [] initial.
Proof.
  split; unfold initial; cbn [messageHandlers timers trace promises].
  - done.
  - intros id h. by rewrite lookup_empty.
  - intros t. by rewrite elem_of_nil.
  - done.
Qed.

(** Every reachable state is consistent with the identifiers issued. *)
Lemma consistent_run (es : list event) :
  consistent (issued es) (run initial es).
Proof.
  induction es as [| e es IH] using rev_ind.
  - apply consistent_initial.
  - rewrite run_snoc, issued_app. by apply consistent_step.
Qed.

Lemma issued_nonempty (es : list event) (id : string) :
  id ∈ issued es -> id <> EmptyString.
Proof.
  unfold issued. rewrite list_elem_of_omap. intros (e & _ & He).
  destruct e; simplify_eq; apply generateUUID_nonempty.
Qed.

(** Registered identifiers are never the empty string. *)
Lemma registered_nonempty (es : list event) (id : string) (h : handler) :
  messageHandlers (run initial es) !! id = Some h -> id <> EmptyString.
Proof.
  intros Hl. destruct (consistent_handler _ _ (consistent_run es) _ _ Hl)
    as [Hi _].
  eapply issued_nonempty, list_elem_of_lookup_2, Hi.
Qed.

(** The trace only grows. *)
Lemma step_trace (c : client) (e : event) :
  exists tr, trace (step c e) = trace c ++ tr.
Proof.
  destruct e as [options onChunk draws | draws | data | k]; unfold step.
  - rewrite sendChatCompletion_eq. cbn. eauto.
  - rewrite ping_eq. cbn. eauto.
  - destruct (handleMessage_reaction data c) as [-> | (id & h & Hl & R)].
    { exists []. by rewrite app_nil_r. }
    inversion R; cbn; eauto; exists []; by rewrite app_nil_r.
  - unfold expire, on_timeout.
    repeat case_match; cbn; eauto; exists []; by rewrite app_nil_r.
Qed.

Lemma run_trace (c : client) (es : list event) :
  exists tr, trace (run c es) = trace c ++ tr.
Proof.
  induction es as [| e es [tr IH]] using rev_ind.
  - exists []. by rewrite app_nil_r.
  - rewrite run_snoc. destruct (step_trace (run c es) e) as [tr' ->].
    rewrite IH, <- app_assoc. eauto.
Qed.

Lemma promise_state_app (p : promise) (tr tr' : list effect) :
  promise_state p (tr ++ tr') =
  match promise_state p tr with
  | Some s => Some s
  | None => promise_state p tr'
  end.
Proof.
  induction tr as [| e tr IH]; [done |].
  destruct e; cbn; try done; by destruct (Nat.eqb p _).
Qed.

Lemma promise_state_pending (p : promise) (tr : list effect) :
  settle_calls p tr = 0%nat -> promise_state p tr = None.
Proof.
  induction tr as [| e tr IH]; [done |].
  change (e :: tr) with ([e] ++ tr).
  rewrite settle_calls_app, settle_calls_one.
  destruct e; cbn; try done; by destruct (Nat.eqb p _).
Qed.

(** A settled promise keeps its state through any further events. *)
Lemma promise_state_stable (p : promise) (c : client) (es : list event)
    (s : settlement) :
  promise_state p (trace c) = Some s ->
  promise_state p (trace (run c es)) = Some s.
Proof.
  intros Hs. destruct (run_trace c es) as [tr ->].
  by rewrite promise_state_app, Hs.
Qed.

(** With pairwise distinct identifiers, no promise is settled twice. *)
Lemma once_step (ids : list string) (c : client) (e : event) :
  NoDup ids ->
  consistent ids c ->
  (forall p, (settle_calls p (trace c) <= 1)%nat) ->
  forall p, (settle_calls p (trace (step c e)) <= 1)%nat.
Proof.
  intros Hnd [Hn Hh Ht Hu] Hone p.
  destruct e as [options onChunk draws | draws | data | k]; unfold step.
  - rewrite sendChatCompletion_eq. cbn.
    rewrite settle_calls_app, (silent_calls p [_; _])
      by (by repeat constructor).
    specialize (Hone p). lia.
  - rewrite ping_eq. cbn.
    rewrite settle_calls_app, (silent_calls p [_]) by (by repeat constructor).
    specialize (Hone p). lia.
  - destruct (handleMessage_reaction data c) as [-> | (id & h & Hl & R)];
      [apply Hone |].
    destruct (Hh _ _ Hl) as [Hi Hs].
    inversion R as [e E | E | pre e Hpre Hown He E | q s o full full' v -> E];
      cbn; try apply Hone.
    + rewrite !settle_calls_app, (silent_calls _ pre Hpre), settle_calls_one.
      destruct (settles p e) eqn:Hp; [| specialize (Hone p); lia].
      rewrite (settles_same _ _ _ Hp He), Hs. lia.
    + rewrite settle_calls_app, (silent_calls _ (observer_calls o v))
        by apply observer_calls_silent.
      specialize (Hone p). lia.
  - unfold expire.
    destruct (timers c !! k) as [t |] eqn:Hk; [| apply Hone].
    assert (Hin : t ∈ timers c) by by eapply list_elem_of_lookup_2.
    unfold on_timeout. cbn.
    destruct (messageHandlers c !! pingId t) as [h |] eqn:Hl; cbn;
      [| apply Hone].
    destruct (Hh _ _ Hl) as [Hi Hs].
    assert (handler_promise h = ping_promise t) as E
      by (eapply NoDup_lookup; eauto).
    rewrite settle_calls_app, settle_calls_one. cbn.
    destruct (Nat.eqb_spec p (ping_promise t)) as [-> | _];
      [rewrite <- E, Hs; lia | specialize (Hone p); lia].
Qed.

Lemma once_run (es : list event) :
  NoDup (issued es) ->
  forall p, (settle_calls p (trace (run initial es)) <= 1)%nat.
Proof.
  induction es as [| e es IH] using rev_ind; intros Hnd p.
  - cbn. unfold settle_calls. cbn. lia.
  - rewrite run_snoc. rewrite issued_app in Hnd.
    eapply once_step; [| apply consistent_run |].
    + by eapply NoDup_app in Hnd as [? _].
    + apply IH. by eapply NoDup_app in Hnd as [? _].
Qed.

Lemma string_app_nil_r (s : string) : s +:+ "" = s.
Proof.
  induction s as [| a s IH]; [done |].
  change (String a s +:+ "") with (String a (s +:+ "")). by rewrite IH.
Qed.

Lemma string_app_assoc (s t u : string) : (s +:+ t) +:+ u = s +:+ (t +:+ u).
Proof.
  induction s as [| a s IH]; [done |].
  change ((String a s +:+ t) +:+ u) with (String a ((s +:+ t) +:+ u)).
  by rewrite IH.
Qed.

(** The promise of a registered closure is pending. *)
Lemma live_pending (es : list event) (id : string) (h : handler) :
  messageHandlers (run initial es) !! id = Some h ->
  settle_calls (handler_promise h) (trace (run initial es)) = 0%nat.
Proof.
  intros Hl. by destruct (consistent_handler _ _ (consistent_run es) _ _ Hl).
Qed.

(** A chunk frame on a live streaming exchange. *)
Lemma chunk_step (c : client) (id : string) (p : promise) (stream : value)
    (onChunk : option observer) (full text : string) :
  id <> EmptyString ->
  truthy stream = true ->
  messageHandlers c !! id = Some (ChatHandler p stream onChunk full) ->
  handleMessage (stream_chunk id text) c =
  (Ok tt,
   if nonempty text
   then accumulated id (ChatHandler p stream onChunk (full +:+ text))
                    (observer_calls onChunk (VStr text)) c
   else c).
Proof.
  intros Hne Hs Hl.
  rewrite (handleMessage_dispatch (stream_chunk id text) c id _ eq_refl Hne Hl).
  unfold call_handler, chat_handler, bind, lift. cbn. rewrite Hs. cbn.
  unfold nonempty. destruct (String.eqb text ""); cbn; [done |].
  unfold accumulated. destruct onChunk; cbn; [done |].
  by rewrite app_nil_r.
Qed.

(** The end-of-stream frame on a live streaming exchange. *)
Lemma complete_step (c : client) (id : string) (p : promise) (stream : value)
    (onChunk : option observer) (full : string) :
  id <> EmptyString ->
  truthy stream = true ->
  messageHandlers c !! id = Some (ChatHandler p stream onChunk full) ->
  handleMessage (stream_complete id) c =
  (Ok tt, settled id [Resolve p (VStr full)] c).
Proof.
  intros Hne Hs Hl.
  rewrite (handleMessage_dispatch (stream_complete id) c id _ eq_refl Hne Hl).
  unfold call_handler, chat_handler, bind, lift. cbn. by rewrite Hs.
Qed.

Lemma stream_run (id : string) (p : promise) (stream : value)
    (onChunk : option observer) (texts : list string) :
  id <> EmptyString ->
  truthy stream = true ->
  forall (c : client) (full : string),
  messageHandlers c !! id = Some (ChatHandler p stream onChunk full) ->
  run c (stream_frames id texts) =
  Client (delete id (messageHandlers c)) (timers c) (promises c)
         (trace c ++ observed onChunk texts ++
          [Resolve p (VStr (full +:+ concatenation texts))]).
Proof.
  intros Hne Hs. unfold stream_frames, observed.
  induction texts as [| text texts IH]; intros c full Hl.
  - cbn [map app run fold_left step List.filter flat_map concatenation foldr].
    rewrite (complete_step _ _ _ _ _ _ Hne Hs Hl). cbn.
    by rewrite string_app_nil_r.
  - cbn [map app run fold_left step].
    rewrite (chunk_step _ _ _ _ _ _ text Hne Hs Hl). cbn [snd].
    cbn [List.filter concatenation foldr].
    destruct (nonempty text) eqn:Ht.
    + fold (run (accumulated id (ChatHandler p stream onChunk (full +:+ text))
                   (observer_calls onChunk (VStr text)) c)
                (map (fun text => Message (stream_chunk id text)) texts ++
                 [Message (stream_complete id)])).
      rewrite (IH _ (full +:+ text)) by apply lookup_insert_eq.
      cbn [accumulated messageHandlers timers promises trace flat_map].
      by rewrite delete_insert_eq, <- !app_assoc, string_app_assoc.
    + fold (run c (map (fun text => Message (stream_chunk id text)) texts ++
                   [Message (stream_complete id)])).
      rewrite (IH _ full Hl).
      unfold nonempty in Ht. apply negb_false_iff, String.eqb_eq in Ht.
      by subst text.
Qed.

(** C1: a streaming request is issued in any reachable state; the chunk
    frames of its identifier arrive in order, followed by the end-of-stream
    frame.  The observer, when supplied, is called once per non-empty
    fragment, in arrival order, and then [resolve] is called with the
    concatenation of the fragments: the promise is fulfilled with it and
    the exchange has left the registry.  For the fragments "A", "B" the
    calls are [onChunk("A")], [onChunk("B")], [resolve("AB")]. *)
Theorem streaming_accumulation (es : list event)
    (options : list (string * value)) (onChunk : option observer)
    (draws : nat -> Q) (texts : list string) :
  truthy (with_default (assoc "stream" options) (VBool true)) = true ->
  let c0 := run initial es in
  let id := generateUUID draws in
  let p := promises c0 in
  let c1 := step c0 (CallSend options onChunk draws) in
  let c2 := run c1 (stream_frames id texts) in
  (sendChatCompletion options onChunk draws c0).1 = Ok p /\
  trace c2 = trace c1 ++ observed onChunk texts ++
             [Resolve p (VStr (concatenation texts))] /\
  promise_state p (trace c2) = Some (Fulfilled (VStr (concatenation texts))) /\
  messageHandlers c2 !! id = None.
Proof.
  intros Hs c0 id p c1 c2.
  assert (Hl : messageHandlers c1 !! id =
               Some (ChatHandler p
                       (with_default (assoc "stream" options) (VBool true))
                       onChunk EmptyString)).
  { unfold c1, step. rewrite sendChatCompletion_eq. cbn.
    apply lookup_insert_eq. }
  assert (Hc2 := stream_run id p _ onChunk texts
                   (generateUUID_nonempty draws) Hs c1 EmptyString Hl).
  fold c2 in Hc2. change ("" +:+ concatenation texts)
    with (concatenation texts) in Hc2.
  split; [by rewrite sendChatCompletion_eq |].
  rewrite Hc2. cbn [trace messageHandlers]. split; [done |].
  split; [| apply lookup_delete_eq].
  assert (Hp : settle_calls p (trace c1) = 0%nat).
  { pose proof (live_pending (es ++ [CallSend options onChunk draws]) id) as H.
    rewrite run_snoc in H. exact (H _ Hl). }
  rewrite promise_state_app, (promise_state_pending _ _ Hp).
  rewrite promise_state_app.
  assert (promise_state p (observed onChunk texts) = None) as ->.
  { apply promise_state_pending, silent_calls. unfold observed.
    induction (List.filter nonempty texts) as [| t ts IH]; cbn; [done |].
    apply Forall_app. split; [apply observer_calls_silent | done]. }
  cbn. by rewrite Nat.eqb_refl.
Qed.

Lemma streaming_accumulation_witness :
  let c1 := step initial
              (CallSend [("stream", VBool true)] (Some 7%nat) sample_draws) in
  let c2 := run c1 [Message (stream_chunk sample_id "A");
                    Message (stream_chunk sample_id "B");
                    Message (stream_complete sample_id)] in
  (sendChatCompletion [("stream", VBool true)] (Some 7%nat) sample_draws
     initial).1 = Ok 0%nat /\
  trace c2 = trace c1 ++ [OnChunk 7%nat (VStr "A"); OnChunk 7%nat (VStr "B")] ++
             [Resolve 0%nat (VStr "AB")] /\
  promise_state 0%nat (trace c2) = Some (Fulfilled (VStr "AB")) /\
  messageHandlers c2 !! sample_id = None.
Proof.
  exact (streaming_accumulation [] [("stream", VBool true)] (Some 7%nat)
           sample_draws ["A"; "B"] eq_refl).
Defined.

(** C6: in every reachable state, a frame (a decoded value whose
    [request_id] can be read) that names a registered exchange is handed to
    that exchange's closure and to no other: every other registry entry is
    untouched and every call made is a call of something that closure
    captured.  A frame whose [request_id] is absent, or is not a key of the
    registry, has no effect at all: [handleMessage] returns normally and the
    state, trace included, is unchanged. *)
Theorem routing (es : list event) (data rid : value) :
  get_field data "request_id" = Ok rid ->
  let c := run initial es in
  (forall id h,
     rid = VStr id ->
     messageHandlers c !! id = Some h ->
     handleMessage data c = call_handler id h data c /\
     (forall id', id' <> id ->
        messageHandlers (handleMessage data c).2 !! id' =
        messageHandlers c !! id') /\
     exists tr, trace (handleMessage data c).2 = trace c ++ tr /\
                Forall (owned_by h) tr) /\
  (lookup_handler rid c = None -> handleMessage data c = (Ok tt, c)).
Proof.
  intros Hd c. split; [| by apply handleMessage_drop].
  intros id h -> Hl.
  assert (Hne : id <> EmptyString) by by eapply registered_nonempty.
  rewrite (handleMessage_dispatch data c id h Hd Hne Hl).
  split; [done |].
  destruct (call_handler_reaction id h data c)
    as [e | | pre e Hpre Hown He | p s o full full' v ->];
    cbn [snd settled accumulated messageHandlers trace].
  - split; [done |]. exists []. by rewrite app_nil_r.
  - split; [done |]. exists []. by rewrite app_nil_r.
  - split; [intros id' Hid'; by apply lookup_delete_ne | eauto].
  - split; [intros id' Hid'; by apply lookup_insert_ne |].
    eexists. split; [done |]. destruct o; repeat constructor. cbn. eauto.
Qed.

Lemma routing_witness :
  let c := run initial [CallPing sample_draws] in
  get_field (pong "someone-else") "request_id" = Ok (VStr "someone-else") /\
  lookup_handler (VStr "someone-else") c = None /\
  handleMessage (pong "someone-else") c = (Ok tt, c).
Proof.
  intros c.
  destruct (routing [CallPing sample_draws] (pong "someone-else")
              (VStr "someone-else") eq_refl) as [_ H].
  split; [reflexivity |]. split; [reflexivity |]. apply H. reflexivity.
Defined.

(** C9: a frame of the other mode addressed to a live exchange is ignored.
    A [completion] frame for a streaming exchange, and a [stream_chunk] or
    [stream_complete] frame for a unary exchange, make [handleMessage]
    return normally with the state unchanged: nothing is called, the
    promise stays pending and the closure stays registered. *)
Theorem mode_mismatch_ignored (es : list event) (id : string) (p : promise)
    (stream : value) (onChunk : option observer) (full : string)
    (data : value) (ty : string) :
  let c := run initial es in
  messageHandlers c !! id = Some (ChatHandler p stream onChunk full) ->
  get_field data "request_id" = Ok (VStr id) ->
  get_field data "type" = Ok (VStr ty) ->
  (truthy stream = true /\ ty = "completion") \/
  (truthy stream = false /\ (ty = "stream_chunk" \/ ty = "stream_complete")) ->
  handleMessage data c = (Ok tt, c) /\
  promise_state p (trace (handleMessage data c).2) = None /\
  messageHandlers (handleMessage data c).2 !! id =
  Some (ChatHandler p stream onChunk full).
Proof.
  intros c Hl Hd Hty Hmode.
  assert (Hne : id <> EmptyString) by by eapply registered_nonempty.
  assert (handleMessage data c = (Ok tt, c)) as ->.
  { rewrite (handleMessage_dispatch data c id _ Hd Hne Hl).
    unfold call_handler, chat_handler, bind, lift. rewrite Hty.
    destruct Hmode as [[Hs ->] | [Hs [-> | ->]]]; cbn; by rewrite Hs. }
  split; [done |]. split; [| done].
  apply promise_state_pending, (live_pending es id _ Hl).
Qed.

Lemma mode_mismatch_ignored_witness :
  let c := run initial [CallSend [("stream", VBool false)] None sample_draws] in
  messageHandlers c !! sample_id =
    Some (ChatHandler 0%nat (VBool false) None EmptyString) /\
  handleMessage (stream_complete sample_id) c = (Ok tt, c) /\
  promise_state 0%nat (trace (handleMessage (stream_complete sample_id) c).2)
    = None.
Proof.
  intros c.
  destruct (mode_mismatch_ignored
              [CallSend [("stream", VBool false)] None sample_draws]
              sample_id 0%nat (VBool false) None EmptyString
              (stream_complete sample_id) "stream_complete"
              eq_refl eq_refl eq_refl
              (or_intror (conj eq_refl (or_intror eq_refl))))
    as (H1 & H2 & _).
  split; [reflexivity |]. split; [exact H1 | exact H2].
Defined.

Lemma has_content_read (payload : value) (inner : string) :
  payload <> VUndefined ->
  payload <> VNull ->
  has_content payload inner =
  Ok (match read_content payload inner with
      | Ok content => truthy content
      | Throw _ => false
      end).
Proof.
  intros H1 H2. unfold has_content, read_content, get_field_opt.
  destruct (get_field payload "choices") as [choices | e] eqn:Hc;
    [| by destruct payload].
  destruct choices as [| | [] | n | [] | [] | ]; cbn; try done;
    try (destruct (n =? 0); cbn; done);
    repeat (case_match; simplify_eq/=; try done).
Qed.


(** A [completion] frame on a live unary exchange. *)
Lemma completion_step (c : client) (id : string) (p : promise)
    (stream : value) (onChunk : option observer) (full : string)
    (data payload : value) :
  id <> EmptyString ->
  messageHandlers c !! id = Some (ChatHandler p stream onChunk full) ->
  truthy stream = false ->
  get_field data "request_id" = Ok (VStr id) ->
  get_field data "type" = Ok (VStr "completion") ->
  get_field data "data" = Ok payload ->
  payload <> VUndefined ->
  payload <> VNull ->
  handleMessage data c =
  (Ok tt, settled id [Resolve p (unary_answer payload)] c).
Proof.
  intros Hne Hl Hs Hd Hty Hp H1 H2.
  rewrite (handleMessage_dispatch data c id _ Hd Hne Hl).
  unfold call_handler, chat_handler, bind, lift. rewrite Hty. cbn.
  rewrite Hs. cbn. rewrite Hp, (has_content_read payload "message" H1 H2).
  unfold unary_answer.
  destruct (read_content payload "message") as [content | e]; [| done].
  by destruct (truthy content).
Qed.

(** After a settling call, a promise that was pending has the state that
    the call gives it. *)
Lemma settled_state (es : list event) (id : string) (h : handler)
    (e : effect) :
  messageHandlers (run initial es) !! id = Some h ->
  promise_state (handler_promise h)
                (trace (settled id [e] (run initial es))) =
  promise_state (handler_promise h) [e].
Proof.
  intros Hl. cbn [settled trace].
  by rewrite promise_state_app,
    (promise_state_pending _ _ (live_pending es id h Hl)).
Qed.




(** C5, as amended: a [completion] frame (with a payload that is not
    missing) on a live unary exchange is its terminal success: [resolve] is
    called with [data.choices[0].message.content] when that value can be
    read and is truthy (for instance the string "4"), and with the raw
    payload otherwise; the closure leaves the registry in the same step. *)
Theorem unary_completion (es : list event) (id : string) (p : promise)
    (stream : value) (onChunk : option observer) (full : string)
    (data payload : value) :
  let c := run initial es in
  messageHandlers c !! id = Some (ChatHandler p stream onChunk full) ->
  truthy stream = false ->
  get_field data "request_id" = Ok (VStr id) ->
  get_field data "type" = Ok (VStr "completion") ->
  get_field data "data" = Ok payload ->
  payload <> VUndefined ->
  payload <> VNull ->
  handleMessage data c =
    (Ok tt, settled id [Resolve p (unary_answer payload)] c) /\
  promise_state p (trace (handleMessage data c).2) =
    Some (Fulfilled (unary_answer payload)) /\
  messageHandlers (handleMessage data c).2 !! id = None.
Proof.
  intros c Hl Hs Hd Hty Hp H1 H2.
  assert (Hne : id <> EmptyString) by by eapply registered_nonempty.
  rewrite (completion_step c id p stream onChunk full data payload) by done.
  split; [done |]. cbn [snd]. split; [| apply lookup_delete_eq].
  rewrite (settled_state es id _ _ Hl). cbn. by rewrite Nat.eqb_refl.
Qed.

Lemma unary_completion_witness :
  let c := run initial [CallSend [("stream", VBool false)] None sample_draws] in
  let data := completion sample_id (message_payload (VStr "4")) in
  messageHandlers c !! sample_id =
    Some (ChatHandler 0%nat (VBool false) None EmptyString) /\
  unary_answer (message_payload (VStr "4")) = VStr "4" /\
  promise_state 0%nat (trace (handleMessage data c).2) =
    Some (Fulfilled (VStr "4")) /\
  messageHandlers (handleMessage data c).2 !! sample_id = None.
Proof.
  intros c data.
  destruct (unary_completion
              [CallSend [("stream", VBool false)] None sample_draws]
              sample_id 0%nat (VBool false) None EmptyString data
              (message_payload (VStr "4")) eq_refl eq_refl eq_refl eq_refl
              eq_refl ltac:(discriminate) ltac:(discriminate))
    as (_ & H2 & H3).
  split; [reflexivity |]. split; [reflexivity |]. split; [exact H2 | exact H3].
Defined.

(** C5 as stated fails when the content field is present but falsy: with
    content [""] the promise is fulfilled with the payload object, not with
    the content. *)
Lemma unary_completion_empty_content :
  let c := run initial [CallSend [("stream", VBool false)] None sample_draws] in
  let payload := message_payload (VStr "") in
  let c' := step c (Message (completion sample_id payload)) in
  read_content payload "message" = Ok (VStr "") /\
  promise_state 0%nat (trace c') = Some (Fulfilled payload) /\
  promise_state 0%nat (trace c') <> Some (Fulfilled (VStr "")).
Proof.
  intros c payload c'.
  split; [reflexivity |].
  assert (H : promise_state 0%nat (trace c') = Some (Fulfilled payload))
    by (vm_compute; reflexivity).
  split; [exact H |]. rewrite H. discriminate.
Qed.

(** C10: a [completion] frame whose [data.choices[0].message.content] is
    the empty string, on a live unary exchange, calls [resolve] with the
    raw payload object (the content being falsy), and the promise is
    fulfilled with that object. *)
Theorem empty_content_gives_payload (es : list event) (id : string)
    (p : promise) (stream : value) (onChunk : option observer)
    (full : string) (data payload : value) :
  let c := run initial es in
  messageHandlers c !! id = Some (ChatHandler p stream onChunk full) ->
  truthy stream = false ->
  get_field data "request_id" = Ok (VStr id) ->
  get_field data "type" = Ok (VStr "completion") ->
  get_field data "data" = Ok payload ->
  read_content payload "message" = Ok (VStr "") ->
  handleMessage data c = (Ok tt, settled id [Resolve p payload] c) /\
  promise_state p (trace (handleMessage data c).2) =
    Some (Fulfilled payload) /\
  messageHandlers (handleMessage data c).2 !! id = None.
Proof.
  intros c Hl Hs Hd Hty Hp Hr.
  assert (Hne : id <> EmptyString) by by eapply registered_nonempty.
  assert (H1 : payload <> VUndefined) by (by intros ->).
  assert (H2 : payload <> VNull) by (by intros ->).
  rewrite (completion_step c id p stream onChunk full data payload) by done.
  unfold unary_answer. rewrite Hr. cbn [truthy String.eqb negb].
  split; [done |]. cbn [snd]. split; [| apply lookup_delete_eq].
  rewrite (settled_state es id _ _ Hl). cbn. by rewrite Nat.eqb_refl.
Qed.

Lemma empty_content_gives_payload_witness :
  let c := run initial [CallSend [("stream", VBool false)] None sample_draws] in
  let payload := message_payload (VStr "") in
  let data := completion sample_id payload in
  messageHandlers c !! sample_id =
    Some (ChatHandler 0%nat (VBool false) None EmptyString) /\
  read_content payload "message" = Ok (VStr "") /\
  promise_state 0%nat (trace (handleMessage data c).2) =
    Some (Fulfilled payload).
Proof.
  intros c payload data.
  destruct (empty_content_gives_payload
              [CallSend [("stream", VBool false)] None sample_draws]
              sample_id 0%nat (VBool false) None EmptyString data payload
              eq_refl eq_refl eq_refl eq_refl eq_refl eq_refl)
    as (_ & H2 & _).
  split; [reflexivity |]. split; [reflexivity | exact H2].
Defined.

(** Handling a frame never touches the armed timers. *)
Lemma handleMessage_timers (data : value) (c : client) :
  timers (handleMessage data c).2 = timers c.
Proof.
  destruct (handleMessage_reaction data c) as [-> | (id & h & _ & R)];
    [done |].
  by destruct R.
Qed.

(** An identifier that is not registered stays so until it is issued. *)
Lemma absent_step (c : client) (e : event) (id : string) :
  messageHandlers c !! id = None ->
  id ∉ issued [e] ->
  messageHandlers (step c e) !! id = None.
Proof.
  intros Hn Hi.
  destruct e as [options onChunk draws | draws | data | k]; unfold step.
  - rewrite sendChatCompletion_eq. cbn [snd messageHandlers].
    rewrite lookup_insert_ne; [done |]. cbn in Hi. set_solver.
  - rewrite ping_eq. cbn [snd messageHandlers].
    rewrite lookup_insert_ne; [done |]. cbn in Hi. set_solver.
  - destruct (handleMessage_reaction data c) as [-> | (id' & h & Hl & R)];
      [done |].
    assert (id' <> id) by congruence.
    destruct R; cbn [snd settled accumulated messageHandlers]; try done.
    + by rewrite lookup_delete_ne.
    + by rewrite lookup_insert_ne.
  - unfold expire, on_timeout. repeat case_match; simplify_eq/=; try done.
    rewrite lookup_delete. by case_decide.
Qed.

Lemma absent_run (es : list event) (c : client) (id : string) :
  messageHandlers c !! id = None ->
  id ∉ issued es ->
  messageHandlers (run c es) !! id = None.
Proof.
  induction es as [| e es IH] using rev_ind; intros Hn Hi; [done |].
  rewrite run_snoc. rewrite issued_app in Hi.
  apply absent_step; [apply IH |]; set_solver.
Qed.

(** A [pong] frame on a live heartbeat exchange. *)
Lemma pong_step (c : client) (id : string) (p : promise) (data : value) :
  id <> EmptyString ->
  messageHandlers c !! id = Some (PingHandler p) ->
  get_field data "request_id" = Ok (VStr id) ->
  get_field data "type" = Ok (VStr "pong") ->
  handleMessage data c =
  (Ok tt, settled id [ConsoleLog "Received pong"; Resolve p VUndefined] c).
Proof.
  intros Hne Hl Hd Hty.
  rewrite (handleMessage_dispatch data c id _ Hd Hne Hl).
  unfold call_handler, ping_handler, bind, lift. rewrite Hty. cbn.
  unfold settled. by rewrite <- app_assoc.
Qed.

(** The timer of a heartbeat whose exchange is gone does nothing. *)
Lemma expire_absent (c : client) (k : nat) (t : timer) :
  timers c !! k = Some t ->
  messageHandlers c !! pingId t = None ->
  expire k c = (Ok tt, disarmed k c).
Proof.
  intros Hk Hn. unfold expire, on_timeout. rewrite Hk. cbn. by rewrite Hn.
Qed.

(** The timer of a live heartbeat rejects it. *)
Lemma expire_live (c : client) (k : nat) (t : timer) (h : handler) :
  timers c !! k = Some t ->
  messageHandlers c !! pingId t = Some h ->
  expire k c =
  (Ok tt, settled (pingId t) [Reject (ping_promise t) "Ping timeout"]
                  (disarmed k c)).
Proof.
  intros Hk Hl. unfold expire, on_timeout. rewrite Hk. cbn. by rewrite Hl.
Qed.

(** C4: a live heartbeat exchange [id] with its timer armed.  If the
    matching [pong] is delivered first, the promise is fulfilled, it stays
    fulfilled through any later events, and the timer, whenever it expires
    afterwards, calls nothing (the state only loses the timer).  If the
    timer expires first, the promise is rejected with "Ping timeout", stays
    so, and a [pong] bearing [id] delivered at any later point is dropped:
    [handleMessage] returns with the state unchanged.  (Later events may be
    anything that does not issue [id] again.) *)
Theorem heartbeat_race (es : list event) (id : string) (p : promise)
    (k : nat) (data : value) :
  let c := run initial es in
  messageHandlers c !! id = Some (PingHandler p) ->
  timers c !! k = Some (Timer id p) ->
  get_field data "request_id" = Ok (VStr id) ->
  get_field data "type" = Ok (VStr "pong") ->
  (let c1 := step c (Message data) in
   promise_state p (trace c1) = Some (Fulfilled VUndefined) /\
   forall later, id ∉ issued later ->
     let c2 := run c1 later in
     promise_state p (trace c2) = Some (Fulfilled VUndefined) /\
     forall k', timers c2 !! k' = Some (Timer id p) ->
                expire k' c2 = (Ok tt, disarmed k' c2)) /\
  (let c1 := step c (Expire k) in
   promise_state p (trace c1) = Some (Rejected "Ping timeout") /\
   forall later, id ∉ issued later ->
     let c2 := run c1 later in
     promise_state p (trace c2) = Some (Rejected "Ping timeout") /\
     handleMessage data c2 = (Ok tt, c2)).
Proof.
  intros c Hl Hk Hd Hty.
  assert (Hne : id <> EmptyString) by by eapply registered_nonempty.
  pose proof (live_pending es id _ Hl) as Hp. cbn in Hp. fold c in Hp.
  split.
  - intros c1.
    assert (Hc1 : c1 = settled id [ConsoleLog "Received pong";
                                   Resolve p VUndefined] c).
    { unfold c1, step. by rewrite (pong_step c id p data). }
    assert (Hs : promise_state p (trace c1) = Some (Fulfilled VUndefined)).
    { rewrite Hc1. cbn [settled trace].
      rewrite promise_state_app, (promise_state_pending _ _ Hp). cbn.
      by rewrite Nat.eqb_refl. }
    split; [done |]. intros later Hi c2.
    split; [by apply promise_state_stable |].
    intros k' Hk'. apply (expire_absent c2 k' _ Hk'). cbn.
    apply absent_run; [| done]. rewrite Hc1. apply lookup_delete_eq.
  - intros c1.
    assert (Hc1 : c1 = settled id [Reject p "Ping timeout"] (disarmed k c)).
    { unfold c1, step. by rewrite (expire_live c k _ _ Hk Hl). }
    assert (Hs : promise_state p (trace c1) = Some (Rejected "Ping timeout")).
    { rewrite Hc1. cbn [settled disarmed trace].
      rewrite promise_state_app, (promise_state_pending _ _ Hp). cbn.
      by rewrite Nat.eqb_refl. }
    split; [done |]. intros later Hi c2.
    split; [by apply promise_state_stable |].
    apply (handleMessage_drop data c2 (VStr id) Hd). cbn.
    apply absent_run; [| done]. rewrite Hc1. apply lookup_delete_eq.
Qed.

Lemma heartbeat_race_witness :
  let c := run initial [CallPing sample_draws] in
  messageHandlers c !! sample_id = Some (PingHandler 0%nat) /\
  timers c !! 0%nat = Some (Timer sample_id 0%nat) /\
  (promise_state 0%nat (trace (step c (Message (pong sample_id)))) =
     Some (Fulfilled VUndefined) /\
   expire 0%nat (step c (Message (pong sample_id))) =
     (Ok tt, disarmed 0%nat (step c (Message (pong sample_id))))) /\
  (promise_state 0%nat (trace (step c (Expire 0%nat))) =
     Some (Rejected "Ping timeout") /\
   handleMessage (pong sample_id) (step c (Expire 0%nat)) =
     (Ok tt, step c (Expire 0%nat))).
Proof.
  intros c.
  destruct (heartbeat_race [CallPing sample_draws] sample_id 0%nat 0%nat
              (pong sample_id) eq_refl eq_refl eq_refl eq_refl)
    as [[Hp1 Hl1] [Hp2 Hl2]].
  split; [reflexivity |]. split; [reflexivity |]. split.
  - split; [exact Hp1 |].
    destruct (Hl1 [] (not_elem_of_nil _)) as [_ He]. apply He. reflexivity.
  - split; [exact Hp2 |].
    by destruct (Hl2 [] (not_elem_of_nil _)) as [_ He].
Defined.




End ClientFacts.

(** ** Identifier generator: the draws behind an identifier *)

Module UuidBits.
Import Uuid UuidFacts.

Lemma nibble_range (x : Q) : unit_draw x -> 0 <= nibble x < 16.
Proof.
  intros H. unfold nibble. rewrite to_int32_small; by apply Qtrunc_unit_draw.
Qed.

Lemma toString16_digit (v : Z) :
  0 <= v < 16 -> toString16 v = String (hex_digit v) EmptyString.
Proof.
  intros H. unfold toString16, to_radix16.
  destruct (Z.ltb_spec v 0); [lia |]. destruct (Z.ltb_spec v 16); [done | lia].
Qed.

Lemma variant_range (r : Z) : 0 <= r < 16 -> 8 <= Z.lor (Z.land r 3) 8 < 12.
Proof.
  intros H. apply small_cases in H.
  repeat (destruct H as [-> | H]; [split; by vm_compute |]).
  subst. split; by vm_compute.
Qed.

Lemma replacer_x_digit (x : Q) :
  unit_draw x ->
  replacer "x" x = String (hex_digit (nibble x)) EmptyString.
Proof.
  intros H. unfold replacer. fold (nibble x).
  change (Ascii.eqb "x" "x") with true. cbv iota zeta.
  by apply toString16_digit, nibble_range.
Qed.

Lemma replacer_y_digit (x : Q) :
  unit_draw x ->
  replacer "y" x =
  String (hex_digit (Z.lor (Z.land (nibble x) 3) 8)) EmptyString.
Proof.
  intros H. unfold replacer. fold (nibble x).
  change (Ascii.eqb "y" "x") with false. cbv iota zeta.
  apply toString16_digit.
  pose proof (variant_range (nibble x) (nibble_range x H)). lia.
Qed.

Lemma hex_digit_inj (a b : Z) :
  0 <= a < 16 -> 0 <= b < 16 -> hex_digit a = hex_digit b -> a = b.
Proof.
  intros Ha Hb. apply small_cases in Ha. apply small_cases in Hb.
  repeat (destruct Ha as [-> | Ha]);
    repeat (destruct Hb as [-> | Hb]); subst;
    (reflexivity || (cbn; discriminate)).
Qed.

Lemma variant_low_bits (r : Z) :
  0 <= r < 16 -> Z.land (Z.lor (Z.land r 3) 8) 3 = Z.land r 3.
Proof.
  intros H. apply small_cases in H.
  repeat (destruct H as [-> | H]; [reflexivity |]). by subst.
Qed.

Lemma String_inj (a b : ascii) (s t : string) :
  String a s = String b t -> a = b /\ s = t.
Proof. by intros [= -> ->]. Qed.

(** X18: which draws an identifier depends on.  [generateUUID] consumes the
    first 31 values of [Math.random]; each contributes the integer part of
    sixteen times the draw, except the sixteenth, of which only the low two
    bits survive in the variant digit.  Two sequences of draws give the
    same identifier exactly when these contributions agree, so an
    identifier carries 122 random bits. *)
Theorem generateUUID_collision (d1 d2 : nat -> Q) :
  (forall k, unit_draw (d1 k)) ->
  (forall k, unit_draw (d2 k)) ->
  generateUUID d1 = generateUUID d2 <->
  forall k, (k < draws_used)%nat -> uuid_bits d1 k = uuid_bits d2 k.
Proof.
  intros H1 H2. unfold generateUUID, template.
  cbn [replace_xy Ascii.eqb Bool.eqb orb andb].
  rewrite !replacer_y_digit by done.
  repeat match goal with
  | |- context [replacer "x" (d1 ?k)] =>
      rewrite (replacer_x_digit (d1 k)) by apply H1
  end.
  repeat match goal with
  | |- context [replacer "x" (d2 ?k)] =>
      rewrite (replacer_x_digit (d2 k)) by apply H2
  end.
  cbv [String.append]. unfold draws_used. split.
  - intros E k Hk.
    repeat match goal with
    | H : String _ _ = String _ _ |- _ => apply String_inj in H as [? H]
    end.
    do 31 (destruct k as [| k];
           [unfold uuid_bits; cbn [Nat.eqb];
            first [ apply hex_digit_inj;
                    [apply nibble_range; done | apply nibble_range; done
                    | done]
                  | rewrite <- (variant_low_bits (nibble (d1 15%nat)))
                      by (by apply nibble_range);
                    rewrite <- (variant_low_bits (nibble (d2 15%nat)))
                      by (by apply nibble_range);
                    f_equal; apply hex_digit_inj;
                    [ pose proof (variant_range _
                                    (nibble_range _ (H1 15%nat))); lia
                    | pose proof (variant_range _
                                    (nibble_range _ (H2 15%nat))); lia
                    | done ] ] |]).
    lia.
  - intros E.
    assert (Ex : forall k, (k < 31)%nat -> k <> 15%nat ->
                           nibble (d1 k) = nibble (d2 k)).
    { intros k Hk Hne. specialize (E k Hk). unfold uuid_bits in E.
      by destruct (Nat.eqb_spec k 15). }
    assert (Ey : Z.land (nibble (d1 15%nat)) 3 = Z.land (nibble (d2 15%nat)) 3)
      by exact (E 15%nat ltac:(lia)).
    rewrite Ey.
    repeat match goal with
    | |- context [nibble (d1 ?k)] => rewrite (Ex k) by lia
    end.
    reflexivity.
Qed.

Lemma generateUUID_collision_witness :
  let d1 : nat -> Q := fun k =>
    if Nat.eqb k 15 then (5 # 16)%Q else (1 # 2)%Q in
  let d2 : nat -> Q := fun k =>
    if Nat.eqb k 15 then (13 # 16)%Q
    else if Nat.ltb k 31 then (17 # 32)%Q else (0 # 1)%Q in
  (forall k, unit_draw (d1 k)) /\
  (forall k, unit_draw (d2 k)) /\
  (forall k, (k < draws_used)%nat -> uuid_bits d1 k = uuid_bits d2 k) /\
  generateUUID d1 = generateUUID d2.
Proof.
  intros d1 d2.
  assert (H1 : forall k, unit_draw (d1 k)).
  { intros k. unfold d1. destruct (Nat.eqb k 15); split; done. }
  assert (H2 : forall k, unit_draw (d2 k)).
  { intros k. unfold d2.
    destruct (Nat.eqb k 15); [split; done |].
    destruct (Nat.ltb k 31); split; done. }
  assert (E : forall k, (k < draws_used)%nat ->
                        uuid_bits d1 k = uuid_bits d2 k).
  { intros k Hk. unfold draws_used in Hk.
    do 31 (destruct k as [| k]; [reflexivity |]). lia. }
  split; [exact H1 |]. split; [exact H2 |]. split; [exact E |].
  exact (proj2 (generateUUID_collision d1 d2 H1 H2) E).
Defined.

End UuidBits.

(** ** The request message *)

Module RequestFacts.
Import Uuid UuidFacts Client ClientFacts.

#[local] Arguments settle_calls : simpl never.
#[local] Arguments generateUUID : simpl never.
#[local] Arguments build_request : simpl never.

Lemma has_key_cons (k k1 : string) (v1 : value)
    (rest : list (string * value)) :
  has_key k ((k1, v1) :: rest) = String.eqb k k1 || has_key k rest.
Proof. reflexivity. Qed.

Lemma assoc_obj_set (k k' : string) (v : value)
    (fields : list (string * value)) :
  assoc k (obj_set k' v fields) =
  if String.eqb k k' then v else assoc k fields.
Proof.
  induction fields as [| [k1 v1] rest IH]; cbn.
  - by destruct (String.eqb k k').
  - destruct (String.eqb_spec k' k1) as [<- | Hne]; cbn.
    + by destruct (String.eqb k k').
    + rewrite IH. destruct (String.eqb_spec k k') as [-> | _]; [| done].
      by destruct (String.eqb_spec k' k1).
Qed.

Lemma has_key_false_assoc (k : string) (fields : list (string * value)) :
  has_key k fields = false -> assoc k fields = VUndefined.
Proof.
  induction fields as [| [k1 v1] rest IH]; cbn; [done |].
  destruct (String.eqb k k1); cbn; [done | exact IH].
Qed.

Lemma assoc_spread_absent (k : string) (extra base : list (string * value)) :
  has_key k extra = false ->
  assoc k (spread base extra) = assoc k base.
Proof.
  revert base. induction extra as [| [k1 v1] extra IH]; intros base;
    [done |].
  rewrite has_key_cons. intros [Hk Hrest]%orb_false_elim.
  change (spread base ((k1, v1) :: extra))
    with (spread (obj_set k1 v1 base) extra).
  rewrite IH by done. by rewrite assoc_obj_set, Hk.
Qed.

Lemma has_key_elem (k : string) (fields : list (string * value)) :
  has_key k fields = true <-> k ∈ keys fields.
Proof.
  induction fields as [| [k1 v1] rest IH].
  - split; [done | by intros ?%elem_of_nil].
  - rewrite has_key_cons, orb_true_iff, IH. unfold keys. cbn [map fst].
    rewrite elem_of_cons, String.eqb_eq. done.
Qed.

(** With distinct property names, the spread gives each of its properties
    the value it has in the object spread. *)
Lemma assoc_spread_present (k : string) (extra base : list (string * value)) :
  NoDup (keys extra) ->
  has_key k extra = true ->
  assoc k (spread base extra) = assoc k extra.
Proof.
  revert base. induction extra as [| [k1 v1] extra IH]; intros base;
    [done |].
  unfold keys. cbn [map fst]. intros [Hnot Hnd]%NoDup_cons.
  rewrite has_key_cons. intros Hk.
  change (spread base ((k1, v1) :: extra))
    with (spread (obj_set k1 v1 base) extra).
  cbn [assoc].
  destruct (has_key k extra) eqn:Hrest.
  - rewrite (IH _ Hnd) by done.
    destruct (String.eqb_spec k k1) as [-> | _]; [| done].
    by apply has_key_elem in Hrest.
  - rewrite orb_false_r in Hk. rewrite Hk.
    rewrite assoc_spread_absent by done. by rewrite assoc_obj_set, Hk.
Qed.

Lemma has_key_rest_params (k : string) (options : list (string * value)) :
  has_key k (rest_params options) =
  has_key k options && negb (existsb (String.eqb k) named_options).
Proof.
  induction options as [| [k1 v1] rest IH]; [done |].
  change (rest_params ((k1, v1) :: rest))
    with (if negb (existsb (String.eqb k1) named_options)
          then (k1, v1) :: rest_params rest else rest_params rest).
  rewrite has_key_cons.
  destruct (String.eqb_spec k k1) as [<- | Hne].
  - destruct (existsb (String.eqb k) named_options) eqn:Hn; cbn [negb orb].
    + by rewrite IH, !andb_false_r.
    + by rewrite has_key_cons, String.eqb_refl.
  - destruct (negb (existsb (String.eqb k1) named_options)); cbn [orb].
    + rewrite has_key_cons. by destruct (String.eqb_spec k k1).
    + exact IH.
Qed.

Lemma assoc_rest_params (k : string) (options : list (string * value)) :
  existsb (String.eqb k) named_options = false ->
  assoc k (rest_params options) = assoc k options.
Proof.
  intros Hn. unfold rest_params.
  induction options as [| [k1 v1] rest IH]; [done |].
  cbn [List.filter assoc fst].
  destruct (String.eqb_spec k k1) as [<- | Hne].
  - rewrite Hn. cbn. by rewrite String.eqb_refl.
  - destruct (negb (existsb (String.eqb k1) named_options)); cbn; [| done].
    by destruct (String.eqb_spec k k1).
Qed.

Lemma keys_rest_params_NoDup (options : list (string * value)) :
  NoDup (keys options) -> NoDup (keys (rest_params options)).
Proof.
  unfold rest_params, keys.
  induction options as [| [k1 v1] rest IH]; [done |].
  cbn [map fst List.filter]. intros [Hnot Hnd]%NoDup_cons.
  destruct (negb (existsb (String.eqb k1) named_options)); cbn; [| by eauto].
  apply NoDup_cons. split; [| by eauto].
  intros Hin. apply Hnot.
  apply list_elem_of_fmap in Hin as ([k2 v2] & -> & Hin).
  apply list_elem_of_In, List.filter_In in Hin as [Hin _].
  apply list_elem_of_fmap. exists (k2, v2). by rewrite list_elem_of_In.
Qed.

(** X1: the [stream] flag on the wire is the flag the closure captured:
    the option given by the caller, and [true] when the caller gave none.
    No extra parameter can change it. *)
Theorem stream_flag_agrees (options : list (string * value))
    (onChunk : option observer) (draws : nat -> Q) (c : client) :
  let id := generateUUID draws in
  let c' := (sendChatCompletion options onChunk draws c).2 in
  let flag := with_default (assoc "stream" options) (VBool true) in
  get_field_opt (build_request id options) "stream" = flag /\
  messageHandlers c' !! id =
    Some (ChatHandler (promises c) flag onChunk EmptyString) /\
  (assoc "stream" options = VUndefined -> flag = VBool true).
Proof.
  intros id c' flag. split; [| split].
  - unfold build_request, get_field_opt, get_field.
    assert (H : forall f, assoc "stream" f = flag ->
      assoc "stream"
        (let r := if is_null (with_default (assoc "temperature" options) VNull)
                  then f
                  else obj_set "temperature"
                         (with_default (assoc "temperature" options) VNull) f
         in if is_null (with_default (assoc "maxTokens" options) VNull)
            then r
            else obj_set "max_tokens"
                   (with_default (assoc "maxTokens" options) VNull) r)
      = flag).
    { intros f Hf. cbv zeta. repeat case_match; by rewrite ?assoc_obj_set. }
    apply H. rewrite assoc_spread_absent; [done |].
    by rewrite has_key_rest_params, andb_false_r.
  - unfold c'. rewrite sendChatCompletion_eq. cbn. apply lookup_insert_eq.
  - intros Hs. unfold flag. by rewrite Hs.
Qed.

(** The properties of the request message, read one by one. *)
Lemma request_field (id : string) (options : list (string * value))
    (k : string) :
  get_field_opt (build_request id options) k =
  let temperature := with_default (assoc "temperature" options) VNull in
  let maxTokens := with_default (assoc "maxTokens" options) VNull in
  if String.eqb k "max_tokens" && negb (is_null maxTokens) then maxTokens
  else if String.eqb k "temperature" && negb (is_null temperature)
  then temperature
  else assoc k
         (spread [("type", VStr "chat_completion"); ("request_id", VStr id);
                  ("model", assoc "model" options);
                  ("messages", assoc "messages" options);
                  ("stream",
                   with_default (assoc "stream" options) (VBool true))]
                 (rest_params options)).
Proof.
  unfold build_request, get_field_opt, get_field. cbv zeta.
  destruct (is_null (with_default (assoc "maxTokens" options) VNull));
    destruct (is_null (with_default (assoc "temperature" options) VNull));
    cbn [negb]; rewrite ?andb_false_r, ?andb_true_r, ?assoc_obj_set;
    done.
Qed.

(** X2: [temperature] and [max_tokens] are optional on the wire.
    [temperature] is sent exactly when the caller gave a value other than
    [null] (and then unchanged); a [maxTokens] other than [null] is sent
    under the name [max_tokens], replacing an extra parameter of that name;
    the name [maxTokens] itself never reaches the wire. *)
Theorem optional_parameters (id : string) (options : list (string * value)) :
  let request := build_request id options in
  let temperature := with_default (assoc "temperature" options) VNull in
  let maxTokens := with_default (assoc "maxTokens" options) VNull in
  get_field_opt request "temperature" =
    (if is_null temperature then VUndefined else temperature) /\
  (is_null maxTokens = false ->
   get_field_opt request "max_tokens" = maxTokens) /\
  get_field_opt request "maxTokens" = VUndefined.
Proof.
  intros request temperature maxTokens. unfold request.
  rewrite !request_field. cbv zeta. fold temperature maxTokens.
  split; [| split].
  - cbn [String.eqb Ascii.eqb Bool.eqb andb].
    destruct (is_null temperature); cbn [negb andb];
      [| done].
    rewrite assoc_spread_absent; [done |].
    by rewrite has_key_rest_params, andb_false_r.
  - intros ->. done.
  - cbn [String.eqb Ascii.eqb Bool.eqb andb].
    rewrite assoc_spread_absent; [done |].
    by rewrite has_key_rest_params, andb_false_r.
Qed.

Lemma optional_parameters_witness :
  let options := [("maxTokens", VNum 64); ("max_tokens", VNum 8);
                  ("temperature", VNull)] in
  let request := build_request sample_id options in
  is_null (VNum 64) = false /\
  get_field_opt request "max_tokens" = VNum 64 /\
  get_field_opt request "temperature" = VUndefined.
Proof.
  intros options request.
  destruct (optional_parameters sample_id options) as (Ht & Hm & _).
  split; [reflexivity |]. split; [exact (Hm eq_refl) | exact Ht].
Defined.

(** An option outside the destructuring pattern reaches the wire as given. *)
Lemma request_passthrough (id : string) (options : list (string * value))
    (k : string) :
  NoDup (keys options) ->
  existsb (String.eqb k) named_options = false ->
  k <> "max_tokens" ->
  has_key k options = true ->
  get_field_opt (build_request id options) k = assoc k options.
Proof.
  intros Hnd Hn Hm Hk. rewrite request_field. cbv zeta.
  destruct (String.eqb_spec k "max_tokens") as [-> | _]; [done |].
  destruct (String.eqb_spec k "temperature") as [-> | _]; [done |].
  cbn [andb].
  rewrite assoc_spread_present.
  - by apply assoc_rest_params.
  - by apply keys_rest_params_NoDup.
  - by rewrite has_key_rest_params, Hk, Hn.
Qed.

(** X3: every other option travels unchanged.  For an options object
    (distinct property names), a property that is not one of the six
    destructured names (nor [max_tokens]) appears on the wire with the
    caller's value; this includes [type] and [request_id], which replace the
    client's own.  Without such properties the message carries type
    "chat_completion", the generated identifier, and the caller's [model]
    and [messages]. *)
Theorem extra_parameters (id : string) (options : list (string * value)) :
  NoDup (keys options) ->
  let request := build_request id options in
  (forall k,
     existsb (String.eqb k) named_options = false ->
     k <> "max_tokens" ->
     has_key k options = true ->
     get_field_opt request k = assoc k options) /\
  (has_key "type" options = false ->
   get_field_opt request "type" = VStr "chat_completion") /\
  (has_key "request_id" options = false ->
   get_field_opt request "request_id" = VStr id) /\
  get_field_opt request "model" = assoc "model" options /\
  get_field_opt request "messages" = assoc "messages" options.
Proof.
  intros Hnd request. unfold request. split; [| split; [| split; [| split]]].
  - intros k Hn Hm Hk. by apply request_passthrough.
  - intros Hk. rewrite request_field. cbv zeta.
    cbn [String.eqb Ascii.eqb Bool.eqb andb].
    rewrite assoc_spread_absent; [done |].
    by rewrite has_key_rest_params, Hk.
  - intros Hk. rewrite request_field. cbv zeta.
    cbn [String.eqb Ascii.eqb Bool.eqb andb].
    rewrite assoc_spread_absent; [done |].
    by rewrite has_key_rest_params, Hk.
  - rewrite request_field. cbv zeta.
    cbn [String.eqb Ascii.eqb Bool.eqb andb].
    rewrite assoc_spread_absent; [done |].
    by rewrite has_key_rest_params, andb_false_r.
  - rewrite request_field. cbv zeta.
    cbn [String.eqb Ascii.eqb Bool.eqb andb].
    rewrite assoc_spread_absent; [done |].
    by rewrite has_key_rest_params, andb_false_r.
Qed.

Lemma extra_parameters_witness :
  let options := [("model", VStr "m"); ("top_p", VNum 1);
                  ("request_id", VStr "mine")] in
  let request := build_request sample_id options in
  NoDup (keys options) /\
  get_field_opt request "top_p" = VNum 1 /\
  get_field_opt request "request_id" = VStr "mine" /\
  get_field_opt request "type" = VStr "chat_completion".
Proof.
  intros options request.
  assert (Hnd : NoDup (keys options)).
  { apply (bool_decide_unpack _). by vm_compute. }
  destruct (extra_parameters sample_id options Hnd) as (Hk & Ht & _).
  split; [exact Hnd |]. split; [| split].
  - apply (Hk "top_p"); [reflexivity | discriminate | reflexivity].
  - apply (Hk "request_id"); [reflexivity | discriminate | reflexivity].
  - apply Ht. reflexivity.
Defined.

End RequestFacts.

(** ** Correlation engine: edge cases and whole runs *)

Module EngineFacts.
Import Uuid UuidFacts Client ClientFacts RequestFacts.

#[local] Arguments settle_calls : simpl never.
#[local] Arguments generateUUID : simpl never.
#[local] Arguments build_request : simpl never.

(** X4: a caller's [request_id] option replaces the correlation identifier
    on the wire, but the closure stays registered under the generated one.
    A reply that echoes the identifier sent is then unmatched and dropped,
    and the exchange stays registered. *)
Theorem request_id_option_breaks_correlation (es : list event)
    (options : list (string * value)) (onChunk : option observer)
    (draws : nat -> Q) (other : string) (data : value) :
  NoDup (keys options) ->
  has_key "request_id" options = true ->
  assoc "request_id" options = VStr other ->
  other <> generateUUID draws ->
  messageHandlers (run initial es) !! other = None ->
  get_field data "request_id" = Ok (VStr other) ->
  let id := generateUUID draws in
  let c := step (run initial es) (CallSend options onChunk draws) in
  get_field_opt (build_request id options) "request_id" = VStr other /\
  handleMessage data c = (Ok tt, c) /\
  is_Some (messageHandlers c !! id).
Proof.
  intros Hnd Hk Ha Hne Hn Hd id c.
  split; [| split].
  - by rewrite (request_passthrough id options "request_id").
  - apply (handleMessage_drop data c (VStr other) Hd). cbn [lookup_handler].
    unfold c, step. rewrite sendChatCompletion_eq. cbn [snd messageHandlers].
    by rewrite lookup_insert_ne.
  - unfold c, step. rewrite sendChatCompletion_eq. cbn [snd messageHandlers].
    rewrite lookup_insert_eq. eauto.
Qed.

Lemma request_id_option_breaks_correlation_witness :
  let options := [("request_id", VStr "mine")] in
  let c := step initial (CallSend options None sample_draws) in
  get_field_opt (build_request sample_id options) "request_id" = VStr "mine" /\
  handleMessage (stream_complete "mine") c = (Ok tt, c) /\
  is_Some (messageHandlers c !! sample_id).
Proof.
  intros options c.
  assert (Hnd : NoDup (keys options)).
  { apply (bool_decide_unpack _). by vm_compute. }
  exact (request_id_option_breaks_correlation [] options None sample_draws
           "mine" (stream_complete "mine") Hnd eq_refl eq_refl
           ltac:(discriminate) eq_refl eq_refl).
Defined.


(** X7: a heartbeat closure reacts to [pong] only.  Any other frame that
    bears the identifier of a live heartbeat exchange, whatever its type
    ([error], [completion], a stream frame, or none), returns normally with
    the client unchanged. *)
Theorem heartbeat_ignores_other_frames (es : list event) (id : string)
    (p : promise) (data ty : value) :
  let c := run initial es in
  messageHandlers c !! id = Some (PingHandler p) ->
  get_field data "request_id" = Ok (VStr id) ->
  get_field data "type" = Ok ty ->
  ty <> VStr "pong" ->
  handleMessage data c = (Ok tt, c).
Proof.
  intros c Hl Hd Hty Hne.
  assert (Hid : id <> EmptyString) by by eapply registered_nonempty.
  rewrite (handleMessage_dispatch data c id _ Hd Hid Hl).
  unfold call_handler, ping_handler, bind, lift. rewrite Hty.
  destruct ty as [| | | | s | |]; cbn; try done.
  destruct (String.eqb_spec s "pong") as [-> | _]; done.
Qed.

Lemma heartbeat_ignores_other_frames_witness :
  let c := run initial [CallPing sample_draws] in
  let data := completion sample_id (message_payload (VStr "4")) in
  messageHandlers c !! sample_id = Some (PingHandler 0%nat) /\
  handleMessage data c = (Ok tt, c).
Proof.
  intros c data. split; [reflexivity |].
  exact (heartbeat_ignores_other_frames [CallPing sample_draws] sample_id
           0%nat data (VStr "completion") eq_refl eq_refl eq_refl
           ltac:(discriminate)).
Defined.




(** X9: a chunk without text is a no-op.  On a live streaming exchange, a
    [stream_chunk] frame whose payload is present but whose
    [choices[0].delta.content] is missing or falsy (a role-only delta, an
    empty [choices] array, the empty string) changes nothing: the observer
    is not called and the accumulated answer is kept. *)
Theorem chunk_without_text_ignored (es : list event) (id : string)
    (p : promise) (stream : value) (onChunk : option observer)
    (full : string) (data payload : value) :
  let c := run initial es in
  messageHandlers c !! id = Some (ChatHandler p stream onChunk full) ->
  truthy stream = true ->
  get_field data "request_id" = Ok (VStr id) ->
  get_field data "type" = Ok (VStr "stream_chunk") ->
  get_field data "data" = Ok payload ->
  payload <> VUndefined ->
  payload <> VNull ->
  match read_content payload "delta" with
  | Ok content => truthy content
  | Throw _ => false
  end = false ->
  handleMessage data c = (Ok tt, c).
Proof.
  intros c Hl Hs Hd Hty Hp H1 H2 Hr.
  assert (Hid : id <> EmptyString) by by eapply registered_nonempty.
  rewrite (handleMessage_dispatch data c id _ Hd Hid Hl).
  unfold call_handler, chat_handler, bind, lift. rewrite Hty. cbn.
  rewrite Hs. cbn. by rewrite Hp, (has_content_read payload "delta" H1 H2), Hr.
Qed.

Lemma chunk_without_text_ignored_witness :
  let c := run initial [CallSend [] (Some 3%nat) sample_draws] in
  let payload :=
    VObj [("choices",
           VArr [VObj [("delta", VObj [("role", VStr "assistant")])]])] in
  let data := frame "stream_chunk" sample_id [("data", payload)] in
  messageHandlers c !! sample_id =
    Some (ChatHandler 0%nat (VBool true) (Some 3%nat) EmptyString) /\
  handleMessage data c = (Ok tt, c).
Proof.
  intros c payload data. split; [reflexivity |].
  exact (chunk_without_text_ignored [CallSend [] (Some 3%nat) sample_draws]
           sample_id 0%nat (VBool true) (Some 3%nat) EmptyString data payload
           eq_refl eq_refl eq_refl eq_refl eq_refl
           ltac:(discriminate) ltac:(discriminate) eq_refl).
Defined.

(** X10: a frame of the exchange's own mode that lacks its payload throws.
    A [stream_chunk] frame on a live streaming exchange, or a [completion]
    frame on a live unary one, whose [data] is missing or [null] makes
    [handleMessage] throw a TypeError; the exchange stays registered with
    its accumulated answer and its promise pending, so a later well-formed
    frame can still complete it. *)
Theorem missing_payload_throws (es : list event) (id : string) (p : promise)
    (stream : value) (onChunk : option observer) (full : string)
    (data payload : value) (ty : string) :
  let c := run initial es in
  messageHandlers c !! id = Some (ChatHandler p stream onChunk full) ->
  get_field data "request_id" = Ok (VStr id) ->
  get_field data "type" = Ok (VStr ty) ->
  (truthy stream = true /\ ty = "stream_chunk") \/
  (truthy stream = false /\ ty = "completion") ->
  get_field data "data" = Ok payload ->
  payload = VUndefined \/ payload = VNull ->
  handleMessage data c = (Throw TypeError, c) /\
  promise_state p (trace c) = None.
Proof.
  intros c Hl Hd Hty Hmode Hp Hnull.
  assert (Hid : id <> EmptyString) by by eapply registered_nonempty.
  split; [| apply promise_state_pending, (live_pending es id _ Hl)].
  rewrite (handleMessage_dispatch data c id _ Hd Hid Hl).
  unfold call_handler, chat_handler, bind, lift. rewrite Hty.
  destruct Hmode as [[Hs ->] | [Hs ->]]; cbn; rewrite Hs; cbn; rewrite Hp;
    by destruct Hnull as [-> | ->].
Qed.

Lemma missing_payload_throws_witness :
  let c := run initial [CallSend [("stream", VBool false)] None sample_draws] in
  let data := frame "completion" sample_id [] in
  messageHandlers c !! sample_id =
    Some (ChatHandler 0%nat (VBool false) None EmptyString) /\
  handleMessage data c = (Throw TypeError, c) /\
  promise_state 0%nat (trace c) = None.
Proof.
  intros c data. split; [reflexivity |].
  exact (missing_payload_throws
           [CallSend [("stream", VBool false)] None sample_draws]
           sample_id 0%nat (VBool false) None EmptyString data VUndefined
           "completion" eq_refl eq_refl eq_refl
           (or_intror (conj eq_refl eq_refl)) eq_refl (or_introl eq_refl)).
Defined.

Lemma run_app' (c : client) (es es' : list event) :
  run c (es ++ es') = run (run c es) es'.
Proof. unfold run. by rewrite fold_left_app. Qed.

Lemma handleMessage_reaction_id (data : value) (c : client) :
  (handleMessage data c).2 = c \/
  exists id h, get_field data "request_id" = Ok (VStr id) /\
               messageHandlers c !! id = Some h /\
               reaction id h c (handleMessage data c).
Proof.
  unfold handleMessage, bind, lift.
  destruct (get_field data "request_id") as [rid | e]; [| by left].
  destruct (truthy rid); [| by left].
  destruct rid as [| | | | id | |]; try by left.
  cbn. destruct (messageHandlers c !! id) as [h |] eqn:Hh; [| by left].
  right. exists id, h. split; [done |]. split; [done |].
  apply call_handler_reaction.
Qed.

(** An entry changes only through a frame that bears its identifier, a
    call that issues it again, or a timer armed for it. *)
Lemma kept_step (c : client) (e : event) (id : string) (h : handler) :
  messageHandlers c !! id = Some h ->
  (forall t, t ∈ timers c -> pingId t <> id) ->
  quiet id e ->
  messageHandlers (step c e) !! id = Some h /\
  (forall t, t ∈ timers (step c e) -> pingId t <> id).
Proof.
  intros Hl Ht Hq.
  destruct e as [options onChunk draws | draws | data | k]; unfold step.
  - rewrite sendChatCompletion_eq. cbn [snd messageHandlers timers].
    by rewrite lookup_insert_ne.
  - rewrite ping_eq. cbn [snd messageHandlers timers].
    rewrite lookup_insert_ne by done. split; [done |].
    intros t [Hin | ->%list_elem_of_singleton]%elem_of_app; [eauto | done].
  - rewrite handleMessage_timers. split; [| done].
    destruct (handleMessage_reaction_id data c)
      as [-> | (id' & h' & Hd & Hl' & R)]; [done |].
    assert (id' <> id) by (intros ->; by apply Hq).
    destruct R; cbn [snd settled accumulated messageHandlers]; try done.
    + by rewrite lookup_delete_ne.
    + by rewrite lookup_insert_ne.
  - unfold expire. destruct (timers c !! k) as [t |] eqn:Hk; [| done].
    assert (Hin : t ∈ timers c) by by eapply list_elem_of_lookup_2.
    assert (Hsub : forall t', t' ∈ delete k (timers c) -> pingId t' <> id).
    { intros t' Hin'. by eapply Ht, list_elem_of_delete_inv. }
    unfold on_timeout. cbn [messageHandlers].
    destruct (messageHandlers c !! pingId t); cbn; [| done].
    rewrite lookup_delete_ne; [done |]. by apply Ht.
Qed.

Lemma kept_run (es : list event) (c : client) (id : string) (h : handler) :
  messageHandlers c !! id = Some h ->
  (forall t, t ∈ timers c -> pingId t <> id) ->
  Forall (quiet id) es ->
  messageHandlers (run c es) !! id = Some h /\
  (forall t, t ∈ timers (run c es) -> pingId t <> id).
Proof.
  induction es as [| e es IH] using rev_ind; intros Hl Ht Hq; [done |].
  apply Forall_app in Hq as [Hq He]. apply Forall_cons in He as [He _].
  rewrite run_snoc. destruct (IH Hl Ht Hq) as [Hl' Ht']. by apply kept_step.
Qed.

Lemma heartbeats_step (ids : list string) (c : client) (e : event) :
  consistent ids c ->
  timers_are_heartbeats c ->
  timers_are_heartbeats (step c e).
Proof.
  intros [Hn Hh Ht Hu] HJ t id h.
  destruct e as [options onChunk draws | draws | data | k]; unfold step.
  - rewrite sendChatCompletion_eq. cbn [snd messageHandlers timers].
    intros Hin. rewrite lookup_insert. case_decide as Hid; [| by eauto].
    intros [= <-]. cbn. intros E.
    pose proof (lookup_lt_Some _ _ _ (Ht _ Hin)). lia.
  - rewrite ping_eq. cbn [snd messageHandlers timers].
    intros [Hin | ->%list_elem_of_singleton]%elem_of_app;
      rewrite lookup_insert; case_decide as Hid.
    + intros [= <-]. eauto.
    + by eauto.
    + intros [= <-]. eauto.
    + intros Hl E. cbn in E.
      destruct (Hh _ _ Hl) as [Hi _].
      pose proof (lookup_lt_Some _ _ _ Hi). lia.
  - rewrite handleMessage_timers. intros Hin.
    destruct (handleMessage_reaction data c)
      as [-> | (id' & h' & Hl' & R)]; [by eauto |].
    destruct R as [e | | pre e Hpre Hown He | p s o full full' v ->];
      cbn [snd settled accumulated messageHandlers]; try by eauto.
    + rewrite lookup_delete. case_decide; [done | by eauto].
    + rewrite lookup_insert. case_decide as Hid; [| by eauto].
      intros [= <-] E. cbn in E.
      destruct (HJ t id' _ Hin Hl' E) as [q Hq]. done.
  - unfold expire. destruct (timers c !! k) as [t0 |] eqn:Hk; [| by eauto].
    unfold on_timeout. cbn [messageHandlers].
    destruct (messageHandlers c !! pingId t0); cbn.
    + intros Hin%list_elem_of_delete_inv. rewrite lookup_delete.
      case_decide; [done | by eauto].
    + intros Hin%list_elem_of_delete_inv. by eauto.
Qed.

Lemma heartbeats_run (es : list event) :
  timers_are_heartbeats (run initial es).
Proof.
  induction es as [| e es IH] using rev_ind.
  - intros t id h Hin. by apply elem_of_nil in Hin.
  - rewrite run_snoc. eapply heartbeats_step; [apply consistent_run | done].
Qed.

(** With distinct identifiers, no timer is armed for the identifier of a
    chat exchange. *)
Lemma no_timer_for_chat (es : list event) (id : string) (p : promise)
    (stream : value) (onChunk : option observer) (full : string) :
  NoDup (issued es) ->
  messageHandlers (run initial es) !! id =
    Some (ChatHandler p stream onChunk full) ->
  forall t, t ∈ timers (run initial es) -> pingId t <> id.
Proof.
  intros Hnd Hl t Hin E.
  destruct (consistent_handler _ _ (consistent_run es) _ _ Hl) as [Hi _].
  pose proof (consistent_timer _ _ (consistent_run es) _ Hin) as Ht.
  rewrite E in Ht. cbn in Hi.
  assert (p = ping_promise t) as Hp by (eapply NoDup_lookup; eauto).
  destruct (heartbeats_run es t id _ Hin Hl Hp) as [q Hq]. done.
Qed.

(** X13: a chat request has no timeout.  With distinct identifiers, a live
    chat exchange stays registered, with its accumulated answer, and its
    promise stays pending through any sequence of events that contains no
    frame bearing its identifier: frames of other exchanges, further
    requests and pings, and every timer expiry leave it as it is. *)
Theorem chat_request_never_times_out (es later : list event) (id : string)
    (p : promise) (stream : value) (onChunk : option observer)
    (full : string) :
  NoDup (issued es) ->
  messageHandlers (run initial es) !! id =
    Some (ChatHandler p stream onChunk full) ->
  Forall (quiet id) later ->
  messageHandlers (run initial (es ++ later)) !! id =
    Some (ChatHandler p stream onChunk full) /\
  promise_state p (trace (run initial (es ++ later))) = None.
Proof.
  intros Hnd Hl Hq.
  pose proof (no_timer_for_chat es id p stream onChunk full Hnd Hl) as Ht.
  destruct (kept_run later _ id _ Hl Ht Hq) as [Hl' _].
  rewrite <- run_app' in Hl'. split; [done |].
  apply promise_state_pending, (live_pending _ id _ Hl').
Qed.

Lemma chat_request_never_times_out_witness :
  let es := [CallPing (fun _ => 0 # 1)%Q; CallSend [] None sample_draws] in
  let other := "00000000-0000-4000-8000-000000000000" in
  let later := [Message (error_frame other "no"); Expire 0%nat;
                Message (stream_complete other)] in
  NoDup (issued es) /\
  Forall (quiet sample_id) later /\
  messageHandlers (run initial (es ++ later)) !! sample_id =
    Some (ChatHandler 1%nat (VBool true) None EmptyString) /\
  promise_state 1%nat (trace (run initial (es ++ later))) = None.
Proof.
  intros es other later.
  assert (Hnd : NoDup (issued es)).
  { apply (bool_decide_unpack _). by vm_compute. }
  assert (Hq : Forall (quiet sample_id) later).
  { apply Forall_cons. split; [cbn; discriminate |].
    apply Forall_cons. split; [exact I |].
    apply Forall_cons. split; [cbn; discriminate | apply Forall_nil_2]. }
  split; [exact Hnd |]. split; [exact Hq |].
  exact (chat_request_never_times_out es later sample_id 1%nat (VBool true)
           None EmptyString Hnd eq_refl Hq).
Defined.

Lemma interleaved_nil_l {A : Type} (ys zs : list A) :
  interleaved [] ys zs -> zs = ys.
Proof.
  intros H. remember [] as xs eqn:E.
  induction H as [| x xs ys zs H IH | y xs ys zs H IH]; [done | done |].
  by rewrite IH.
Qed.

Lemma quiet_not_issued (id : string) (es : list event) :
  Forall (quiet id) es -> id ∉ issued es.
Proof.
  induction 1 as [| e es He _ IH]; [by apply not_elem_of_nil |].
  change (e :: es) with ([e] ++ es). rewrite issued_app.
  apply not_elem_of_app. split; [| done].
  destruct e; cbn in *; rewrite ?elem_of_nil, ?list_elem_of_singleton;
    congruence.
Qed.

Lemma stream_interleaved_run (id : string) (p : promise) (stream : value)
    (onChunk : option observer) (own others mixed : list event) :
  truthy stream = true ->
  interleaved own others mixed ->
  forall (es : list event) (texts : list string) (full : string),
  own = stream_frames id texts ->
  messageHandlers (run initial es) !! id =
    Some (ChatHandler p stream onChunk full) ->
  (forall t, t ∈ timers (run initial es) -> pingId t <> id) ->
  Forall (quiet id) others ->
  promise_state p (trace (run initial (es ++ mixed))) =
    Some (Fulfilled (VStr (full +:+ concatenation texts))) /\
  messageHandlers (run initial (es ++ mixed)) !! id = None.
Proof.
  intros Hs Hi.
  induction Hi as [| x xs ys zs Hi IH | y xs ys zs Hi IH];
    intros es texts full Hown Hl Ht Hq.
  - destruct texts; discriminate.
  - assert (Hid : id <> EmptyString) by by eapply registered_nonempty.
    rewrite (cons_middle x es zs), app_assoc.
    destruct texts as [| text texts]; unfold stream_frames in Hown;
      cbn [map app] in Hown; injection Hown as -> Hxs.
    + subst xs. apply interleaved_nil_l in Hi as ->.
      rewrite run_app', run_snoc.
      assert (step (run initial es) (Message (stream_complete id)) =
              settled id [Resolve p (VStr full)] (run initial es)) as ->.
      { unfold step. by rewrite (complete_step _ _ _ _ _ _ Hid Hs Hl). }
      split.
      * apply promise_state_stable. rewrite (settled_state es id _ _ Hl).
        cbn. by rewrite Nat.eqb_refl, string_app_nil_r.
      * apply absent_run; [apply lookup_delete_eq |].
        by apply quiet_not_issued.
    + cbn [concatenation foldr]. rewrite <- string_app_assoc.
      apply (IH (es ++ [Message (stream_chunk id text)]) texts
               (full +:+ text)); [done | | | done].
      * rewrite run_snoc. unfold step.
        rewrite (chunk_step _ _ _ _ _ _ text Hid Hs Hl). cbn [snd].
        unfold nonempty. destruct (String.eqb_spec text "") as [-> | _];
          cbn [negb].
        { by rewrite string_app_nil_r. }
        apply lookup_insert_eq.
      * rewrite run_snoc. unfold step. by rewrite handleMessage_timers.
  - apply Forall_cons in Hq as [Hy Hq].
    rewrite (cons_middle y es zs), app_assoc.
    destruct (kept_step _ y id _ Hl Ht Hy) as [Hl' Ht'].
    apply (IH (es ++ [y]) texts full); by rewrite ?run_snoc.
Qed.

(** X11: exchanges are multiplexed without interference.  A streaming
    request is issued; its chunk frames and its end-of-stream frame arrive
    in order, interleaved in any way with events of other exchanges (frames
    bearing other identifiers, further requests and pings, timer expiries).
    The promise is still fulfilled with exactly the concatenation of its own
    fragments, and the exchange has left the registry. *)
Theorem stream_unaffected_by_other_exchanges (es others mixed : list event)
    (options : list (string * value)) (onChunk : option observer)
    (draws : nat -> Q) (texts : list string) :
  truthy (with_default (assoc "stream" options) (VBool true)) = true ->
  NoDup (issued (es ++ [CallSend options onChunk draws])) ->
  let id := generateUUID draws in
  let p := promises (run initial es) in
  interleaved (stream_frames id texts) others mixed ->
  Forall (quiet id) others ->
  let c := run initial (es ++ CallSend options onChunk draws :: mixed) in
  promise_state p (trace c) = Some (Fulfilled (VStr (concatenation texts))) /\
  messageHandlers c !! id = None.
Proof.
  intros Hs Hnd id p Hi Hq c. unfold c.
  rewrite (cons_middle _ es mixed), app_assoc.
  assert (Hl : messageHandlers
                 (run initial (es ++ [CallSend options onChunk draws])) !! id =
               Some (ChatHandler p
                       (with_default (assoc "stream" options) (VBool true))
                       onChunk EmptyString)).
  { rewrite run_snoc. unfold step. rewrite sendChatCompletion_eq.
    cbn [snd messageHandlers]. apply lookup_insert_eq. }
  apply (stream_interleaved_run id p _ onChunk _ others mixed Hs Hi
           _ texts EmptyString eq_refl Hl); [| done].
  by eapply no_timer_for_chat.
Qed.

Lemma stream_unaffected_by_other_exchanges_witness :
  let other := "00000000-0000-4000-8000-000000000000" in
  let es := [CallPing (fun _ => 0 # 1)%Q] in
  let mixed := [Message (stream_chunk sample_id "A"); Expire 0%nat;
                Message (stream_chunk sample_id "B"); Message (pong other);
                Message (stream_complete sample_id)] in
  let c := run initial (es ++ CallSend [] None sample_draws :: mixed) in
  NoDup (issued (es ++ [CallSend [] None sample_draws])) /\
  promise_state 1%nat (trace c) = Some (Fulfilled (VStr "AB")) /\
  messageHandlers c !! sample_id = None.
Proof.
  intros other es mixed c.
  assert (Hnd : NoDup (issued (es ++ [CallSend [] None sample_draws]))).
  { apply (bool_decide_unpack _). by vm_compute. }
  split; [exact Hnd |].
  apply (stream_unaffected_by_other_exchanges es
           [Expire 0%nat; Message (pong other)] mixed [] None sample_draws
           ["A"; "B"] eq_refl Hnd).
  - apply interleaved_left, interleaved_right, interleaved_left,
      interleaved_right, interleaved_left, interleaved_nil.
  - apply Forall_cons. split; [exact I |].
    apply Forall_cons. split; [cbn; discriminate | apply Forall_nil_2].
Defined.

Lemma settle_calls_step_mono (p : promise) (c : client) (e : event) :
  (settle_calls p (trace c) <= settle_calls p (trace (step c e)))%nat.
Proof.
  destruct (step_trace c e) as [tr ->]. rewrite settle_calls_app. lia.
Qed.

Lemma covers_step (ids : list string) (c : client) (e : event) :
  NoDup ids ->
  consistent ids c ->
  timers_cover_pending c ->
  timers_cover_pending (step c e).
Proof.
  intros Hnd [Hn Hh Ht Hu] HK t.
  pose proof (settle_calls_step_mono (ping_promise t) c e) as Hmono.
  destruct e as [options onChunk draws | draws | data | k]; unfold step in *.
  - rewrite sendChatCompletion_eq in *. cbn [snd messageHandlers timers] in *.
    intros Hin. rewrite lookup_insert. case_decide; [done |].
    intros Hnone. specialize (HK t Hin Hnone). lia.
  - rewrite ping_eq in *. cbn [snd messageHandlers timers] in *.
    intros [Hin | ->%list_elem_of_singleton]%elem_of_app;
      rewrite lookup_insert; case_decide; try done.
    intros Hnone. specialize (HK t Hin Hnone). lia.
  - rewrite handleMessage_timers. intros Hin.
    destruct (handleMessage_reaction data c)
      as [Hc | (id' & h' & Hl' & R)].
    { rewrite Hc. by apply HK. }
    destruct (Hh _ _ Hl') as [Hi' Hs'].
    revert Hmono.
    destruct R as [e | | pre e Hpre Hown He | p s o full full' v ->];
      cbn [snd settled accumulated messageHandlers trace]; intros Hmono.
    + by apply HK.
    + by apply HK.
    + rewrite lookup_delete. case_decide as Hid.
      * intros _. subst id'.
        assert (handler_promise h' = ping_promise t) as E
          by (eapply NoDup_lookup; eauto).
        rewrite !settle_calls_app, settle_calls_one, <- E, He. lia.
      * intros Hnone. specialize (HK t Hin Hnone). lia.
    + rewrite lookup_insert. case_decide; [done |].
      intros Hnone. specialize (HK t Hin Hnone). lia.
  - unfold expire in *.
    destruct (timers c !! k) as [t0 |] eqn:Hk; [| by apply HK].
    assert (Hin0 : t0 ∈ timers c) by by eapply list_elem_of_lookup_2.
    revert Hmono. unfold on_timeout. cbn [messageHandlers].
    destruct (messageHandlers c !! pingId t0) as [h0 |] eqn:Hl0;
      cbn [snd bind delete_handler emit messageHandlers timers trace];
      intros Hmono Hin%list_elem_of_delete_inv.
    + rewrite lookup_delete. case_decide as Hid.
      * intros _.
        assert (ping_promise t0 = ping_promise t) as E.
        { eapply NoDup_lookup; [done | by apply Ht |].
          rewrite Hid. by apply Ht. }
        rewrite settle_calls_app, settle_calls_one. cbn.
        rewrite E, Nat.eqb_refl. lia.
      * intros Hnone. specialize (HK t Hin Hnone). lia.
    + intros Hnone. by apply HK.
Qed.

Lemma covers_run (es : list event) :
  NoDup (issued es) ->
  timers_cover_pending (run initial es).
Proof.
  induction es as [| e es IH] using rev_ind; intros Hnd.
  - intros t Hin. by apply elem_of_nil in Hin.
  - rewrite run_snoc. rewrite issued_app in Hnd.
    apply NoDup_app in Hnd as (Hnd & _ & _).
    eapply covers_step; [done | apply consistent_run | by apply IH].
Qed.

Lemma promise_state_settled (p : promise) (tr : list effect) :
  (1 <= settle_calls p tr)%nat -> is_Some (promise_state p tr).
Proof.
  induction tr as [| e tr IH]; [unfold settle_calls; cbn; lia |].
  change (e :: tr) with ([e] ++ tr).
  rewrite settle_calls_app, settle_calls_one.
  destruct e; cbn; try (intros H; apply IH; lia);
    destruct (Nat.eqb p _); eauto; intros H; apply IH; lia.
Qed.

(** X12: a heartbeat cannot hang past its timer.  With distinct
    identifiers, once the timer armed by a [ping] has expired, the promise
    of that [ping] is settled: it keeps the state it had if it was settled
    before (by a [pong]), and is rejected with "Ping timeout" if it was
    still pending. *)
Theorem heartbeat_settled_after_timer (es : list event) (k : nat)
    (t : timer) :
  NoDup (issued es) ->
  let c := run initial es in
  timers c !! k = Some t ->
  promise_state (ping_promise t) (trace (step c (Expire k))) =
  match promise_state (ping_promise t) (trace c) with
  | Some s => Some s
  | None => Some (Rejected "Ping timeout")
  end.
Proof.
  intros Hnd c Hk.
  assert (Hin : t ∈ timers c) by by eapply list_elem_of_lookup_2.
  destruct (promise_state (ping_promise t) (trace c)) as [s |] eqn:Hs.
  { change (step c (Expire k)) with (run c [Expire k]).
    by apply promise_state_stable. }
  destruct (messageHandlers c !! pingId t) as [h |] eqn:Hl.
  - unfold step. rewrite (expire_live c k t h Hk Hl).
    cbn [snd settled disarmed trace].
    rewrite promise_state_app, Hs. cbn. by rewrite Nat.eqb_refl.
  - pose proof (covers_run es Hnd t Hin Hl) as H1.
    apply promise_state_settled in H1 as [s' Hs']. fold c in Hs'. congruence.
Qed.

Lemma heartbeat_settled_after_timer_witness :
  let es := [CallPing sample_draws; Message (error_frame sample_id "no")] in
  NoDup (issued es) /\
  timers (run initial es) !! 0%nat = Some (Timer sample_id 0%nat) /\
  promise_state 0%nat (trace (run initial es)) = None /\
  promise_state 0%nat (trace (step (run initial es) (Expire 0%nat))) =
    Some (Rejected "Ping timeout").
Proof.
  intros es.
  assert (Hnd : NoDup (issued es)).
  { apply (bool_decide_unpack _). by vm_compute. }
  split; [exact Hnd |]. split; [reflexivity |]. split; [reflexivity |].
  exact (heartbeat_settled_after_timer es 0%nat (Timer sample_id 0%nat)
           Hnd eq_refl).
Defined.

Lemma orphaned_step (p : promise) (c : client) (e : event) :
  orphaned p c ->
  orphaned p (step c e) /\
  settle_calls p (trace (step c e)) = settle_calls p (trace c).
Proof.
  intros (Hp & Hh & Ht). unfold orphaned.
  destruct e as [options onChunk draws | draws | data | k]; unfold step.
  - rewrite sendChatCompletion_eq.
    cbn [snd messageHandlers timers promises trace]. split.
    + split; [lia |]. split; [| done].
      intros id h. rewrite lookup_insert. case_decide; [| by eauto].
      intros [= <-]. cbn. lia.
    + rewrite settle_calls_app, (silent_calls p [_; _])
        by (by repeat constructor). lia.
  - rewrite ping_eq. cbn [snd messageHandlers timers promises trace]. split.
    + split; [lia |]. split.
      * intros id h. rewrite lookup_insert. case_decide; [| by eauto].
        intros [= <-]. cbn. lia.
      * intros t [Hin | ->%list_elem_of_singleton]%elem_of_app; [by eauto |].
        cbn. lia.
    + rewrite settle_calls_app, (silent_calls p [_])
        by (by repeat constructor). lia.
  - destruct (handleMessage_reaction data c)
      as [-> | (id' & h' & Hl' & R)]; [done |].
    destruct R as [e | | pre e Hpre Hown He | q s o full full' v ->];
      cbn [snd settled accumulated messageHandlers timers promises trace];
      try done.
    + split.
      * split; [done |]. split; [| done].
        intros id h. rewrite lookup_delete. case_decide; [done | by eauto].
      * rewrite !settle_calls_app, (silent_calls _ pre Hpre).
        rewrite (settle_calls_other _ _ _ He); [lia |].
        intros E. by eapply Hh.
    + split.
      * split; [done |]. split; [| done].
        intros id h. rewrite lookup_insert. case_decide; [| by eauto].
        intros [= <-]. by apply (Hh _ _ Hl').
      * rewrite settle_calls_app, (silent_calls p (observer_calls o v))
          by apply observer_calls_silent. lia.
  - unfold expire. destruct (timers c !! k) as [t0 |] eqn:Hk; [| done].
    assert (Hin0 : t0 ∈ timers c) by by eapply list_elem_of_lookup_2.
    assert (Hsub : forall t, t ∈ delete k (timers c) -> ping_promise t <> p).
    { intros t Hin. by eapply Ht, list_elem_of_delete_inv. }
    unfold on_timeout. cbn [messageHandlers].
    destruct (messageHandlers c !! pingId t0) as [h0 |]; cbn; [| done].
    split.
    + split; [done |]. split; [| done].
      intros id h. rewrite lookup_delete. case_decide; [done | by eauto].
    + rewrite settle_calls_app, settle_calls_one. cbn.
      destruct (Nat.eqb_spec p (ping_promise t0)) as [-> | _]; [| lia].
      by destruct (Ht _ Hin0).
Qed.

Lemma orphaned_run (p : promise) (c : client) (es : list event) :
  orphaned p c ->
  settle_calls p (trace (run c es)) = settle_calls p (trace c).
Proof.
  intros Ho.
  assert (orphaned p (run c es) /\
          settle_calls p (trace (run c es)) = settle_calls p (trace c))
    as [_ H]; [| done].
  induction es as [| e es [IH1 IH2]] using rev_ind; [done |].
  rewrite run_snoc. destruct (orphaned_step p _ e IH1) as [H1 H2].
  split; [done | congruence].
Qed.

(** X14: an identifier collision strands the first caller.  If a second
    chat request is issued under the identifier of a chat request that is
    still unanswered, its closure takes the place of the first in the
    registry, and nothing can settle the first promise any more: it stays
    pending through every later sequence of events. *)
Theorem colliding_request_strands_first (es later : list event)
    (options options' : list (string * value))
    (onChunk onChunk' : option observer) (draws draws' : nat -> Q) :
  generateUUID draws' = generateUUID draws ->
  let p := promises (run initial es) in
  let c := run initial (es ++ [CallSend options onChunk draws;
                               CallSend options' onChunk' draws']) in
  messageHandlers c !! generateUUID draws =
    Some (ChatHandler (S p)
            (with_default (assoc "stream" options') (VBool true))
            onChunk' EmptyString) /\
  promise_state p (trace (run c later)) = None.
Proof.
  intros Hid p c.
  assert (Hc : c = step (step (run initial es)
                            (CallSend options onChunk draws))
                    (CallSend options' onChunk' draws')).
  { unfold c.
    replace (es ++ [CallSend options onChunk draws;
                    CallSend options' onChunk' draws'])
      with ((es ++ [CallSend options onChunk draws]) ++
            [CallSend options' onChunk' draws'])
      by (by rewrite <- app_assoc).
    by rewrite !run_snoc. }
  destruct (consistent_run es) as [Hn Hh Ht Hu]. fold p in Hn.
  revert Hc. unfold step. rewrite !sendChatCompletion_eq.
  cbn [snd messageHandlers timers promises trace]. rewrite Hid.
  intros Hc. split.
  - rewrite Hc. cbn [messageHandlers]. apply lookup_insert_eq.
  - apply promise_state_pending. rewrite orphaned_run.
    + rewrite Hc. cbn [trace]. rewrite !settle_calls_app.
      rewrite (silent_calls p [_; _]) by (by repeat constructor).
      rewrite (silent_calls p [_; _]) by (by repeat constructor).
      rewrite Hu; [done |]. fold p. lia.
    + rewrite Hc. split; [cbn; fold p; lia |]. split.
      * intros id h. cbn [messageHandlers]. rewrite insert_insert_eq.
        rewrite lookup_insert. case_decide.
        { intros [= <-]. cbn. fold p. lia. }
        intros Hl. destruct (Hh _ _ Hl) as [Hi _].
        apply lookup_lt_Some in Hi. fold p in Hn. lia.
      * intros t Hin. cbn [timers] in Hin.
        pose proof (lookup_lt_Some _ _ _ (Ht _ Hin)). fold p in Hn. lia.
Qed.

Lemma colliding_request_strands_first_witness :
  let c := run initial [CallSend [] None sample_draws;
                        CallSend [] None sample_draws] in
  let later := [Message (stream_chunk sample_id "A");
                Message (stream_complete sample_id)] in
  generateUUID sample_draws = generateUUID sample_draws /\
  promise_state 0%nat (trace (run c later)) = None /\
  promise_state 1%nat (trace (run c later)) = Some (Fulfilled (VStr "A")).
Proof.
  intros c later. split; [reflexivity |]. split; [| reflexivity].
  exact (proj2 (colliding_request_strands_first [] later [] [] None None
                  sample_draws sample_draws eq_refl)).
Defined.

(** With a socket in place the explicit versions are the operations
    modelled above. *)
Lemma sendChatCompletion_on_connected (thrown : string)
    (options : list (string * value)) (onChunk : option observer)
    (draws : nat -> Q) (c : client) :
  sendChatCompletion_on true thrown options onChunk draws c =
  sendChatCompletion options onChunk draws c.
Proof. reflexivity. Qed.

Lemma ping_on_connected (thrown : string) (draws : nat -> Q) (c : client) :
  ping_on true thrown draws c = ping draws c.
Proof. reflexivity. Qed.

Lemma sendChatCompletion_on_null (thrown : string)
    (options : list (string * value)) (onChunk : option observer)
    (draws : nat -> Q) (c : client) :
  sendChatCompletion_on false thrown options onChunk draws c =
  (Ok (promises c),
   Client (<[generateUUID draws :=
               ChatHandler (promises c)
                 (with_default (assoc "stream" options) (VBool true))
                 onChunk EmptyString]> (messageHandlers c))
          (timers c) (S (promises c))
          (trace c ++ [Reject (promises c) thrown])).
Proof. reflexivity. Qed.

Lemma ping_on_null (thrown : string) (draws : nat -> Q) (c : client) :
  ping_on false thrown draws c =
  (Ok (promises c),
   Client (<[generateUUID draws := PingHandler (promises c)]>
             (messageHandlers c))
          (timers c) (S (promises c))
          (trace c ++ [Reject (promises c) thrown])).
Proof. reflexivity. Qed.

Lemma fresh_pending (es : list event) :
  promise_state (promises (run initial es)) (trace (run initial es)) = None.
Proof.
  apply promise_state_pending.
  destruct (consistent_run es) as [Hn _ _ Hu]. apply Hu. lia.
Qed.

(** X15: [sendChatCompletion] before [connect].  With [this.ws] still
    [null], the call registers its closure and then fails on
    [this.ws.send]: nothing is sent or logged, the returned promise is
    rejected with the TypeError and stays rejected whatever happens later,
    but the closure is left behind in the registry under its identifier. *)
Theorem send_before_connect_leaves_closure (es later : list event)
    (thrown : string) (options : list (string * value))
    (onChunk : option observer) (draws : nat -> Q) :
  let c := run initial es in
  let p := promises c in
  let c' := (sendChatCompletion_on false thrown options onChunk draws c).2 in
  (sendChatCompletion_on false thrown options onChunk draws c).1 = Ok p /\
  trace c' = trace c ++ [Reject p thrown] /\
  messageHandlers c' !! generateUUID draws =
    Some (ChatHandler p (with_default (assoc "stream" options) (VBool true))
            onChunk EmptyString) /\
  promise_state p (trace (run c' later)) = Some (Rejected thrown).
Proof.
  intros c p c'. unfold c'. rewrite sendChatCompletion_on_null.
  cbn [fst snd trace messageHandlers].
  split; [done |]. split; [done |]. split; [apply lookup_insert_eq |].
  apply promise_state_stable. cbn [trace].
  rewrite promise_state_app. unfold p, c. rewrite fresh_pending. cbn.
  by rewrite Nat.eqb_refl.
Qed.

(** X16: [ping] before [connect].  With [this.ws] still [null], the call
    registers the heartbeat closure, fails on [this.ws.send] and so never
    reaches [setTimeout]: the promise is rejected with the TypeError, no
    timer is armed, and the closure stays in the registry through all later
    events that neither bear its identifier nor issue it again. *)
Theorem ping_before_connect_leaves_closure (es later : list event)
    (thrown : string) (draws : nat -> Q) :
  let c := run initial es in
  let p := promises c in
  let id := generateUUID draws in
  let c' := (ping_on false thrown draws c).2 in
  id ∉ issued es ->
  Forall (quiet id) later ->
  timers c' = timers c /\
  promise_state p (trace c') = Some (Rejected thrown) /\
  messageHandlers (run c' later) !! id = Some (PingHandler p).
Proof.
  intros c p id c' Hfresh Hq. unfold c'. rewrite ping_on_null.
  cbn [snd timers trace]. split; [done |]. split.
  - rewrite promise_state_app. unfold p, c. rewrite fresh_pending. cbn.
    by rewrite Nat.eqb_refl.
  - apply kept_run; [apply lookup_insert_eq | | done].
    cbn [timers]. intros t Hin E. apply Hfresh.
    pose proof (consistent_timer _ _ (consistent_run es) t Hin) as Ht.
    rewrite E in Ht. by eapply list_elem_of_lookup_2.
Qed.

Lemma ping_before_connect_leaves_closure_witness :
  let other := "00000000-0000-4000-8000-000000000000" in
  let later := [Message (pong other); Expire 0%nat;
                CallPing (fun _ => 0 # 1)%Q; Expire 0%nat] in
  let c' := (ping_on false "ws is null" sample_draws initial).2 in
  (sample_id ∉ issued []) /\
  timers c' = [] /\
  promise_state 0%nat (trace c') = Some (Rejected "ws is null") /\
  messageHandlers (run c' later) !! sample_id = Some (PingHandler 0%nat).
Proof.
  intros other later c'.
  assert (Hq : Forall (quiet sample_id) later).
  { apply Forall_cons. split; [cbn; discriminate |].
    apply Forall_cons. split; [exact I |].
    apply Forall_cons. split; [cbn; discriminate |].
    apply Forall_cons. split; [exact I | apply Forall_nil_2]. }
  split; [apply not_elem_of_nil |].
  exact (ping_before_connect_leaves_closure [] later "ws is null"
           sample_draws (not_elem_of_nil _) Hq).
Defined.

(** X17: the observer of a unary request is never called.  On a live chat
    exchange whose [stream] flag is falsy, no frame makes the closure call
    [onChunk], whatever the frame is. *)
Theorem unary_never_calls_observer (es : list event) (id : string)
    (p : promise) (stream : value) (onChunk : option observer)
    (full : string) (data : value) :
  let c := run initial es in
  messageHandlers c !! id = Some (ChatHandler p stream onChunk full) ->
  truthy stream = false ->
  get_field data "request_id" = Ok (VStr id) ->
  exists tr, trace (handleMessage data c).2 = trace c ++ tr /\
             forallb (fun e => negb (is_observer_call e)) tr = true.
Proof.
  intros c Hl Hs Hd.
  assert (Hid : id <> EmptyString) by by eapply registered_nonempty.
  rewrite (handleMessage_dispatch data c id _ Hd Hid Hl).
  unfold call_handler, chat_handler, bind, lift.
  destruct (get_field data "type") as [ty | e];
    [| by exists []; rewrite app_nil_r].
  rewrite Hs, !andb_false_r. cbn [negb andb].
  unfold emit, delete_handler, ret.
  repeat case_match; simplify_eq/=;
    first [ by exists []; rewrite app_nil_r
          | by eexists; split; [reflexivity |] ].
Qed.

Lemma unary_never_calls_observer_witness :
  let c := run initial [CallSend [("stream", VBool false)] (Some 3%nat)
                          sample_draws] in
  messageHandlers c !! sample_id =
    Some (ChatHandler 0%nat (VBool false) (Some 3%nat) EmptyString) /\
  exists tr,
    trace (handleMessage (stream_chunk sample_id "A") c).2 = trace c ++ tr /\
    forallb (fun e => negb (is_observer_call e)) tr = true.
Proof.
  intros c. split; [reflexivity |].
  exact (unary_never_calls_observer
           [CallSend [("stream", VBool false)] (Some 3%nat) sample_draws]
           sample_id 0%nat (VBool false) (Some 3%nat) EmptyString
           (stream_chunk sample_id "A") eq_refl eq_refl eq_refl).
Defined.

Lemma strict_eq_str_false (v : value) (lit : string) :
  v <> VStr lit -> strict_eq_str v lit = false.
Proof.
  intros Hne. destruct v as [| | | | s | |]; cbn; try done.
  destruct (String.eqb_spec s lit) as [-> | _]; done.
Qed.

(** X19: a chat closure knows four frame types.  A frame that bears the
    identifier of a live chat exchange but whose [type] is none of [error],
    [stream_chunk], [stream_complete] and [completion] (a [pong], an
    unknown type, a missing or non-string [type]) is ignored in either
    mode: [handleMessage] returns normally with the client unchanged. *)
Theorem chat_ignores_unknown_types (es : list event) (id : string)
    (p : promise) (stream : value) (onChunk : option observer)
    (full : string) (data ty : value) :
  let c := run initial es in
  messageHandlers c !! id = Some (ChatHandler p stream onChunk full) ->
  get_field data "request_id" = Ok (VStr id) ->
  get_field data "type" = Ok ty ->
  ty <> VStr "error" ->
  ty <> VStr "stream_chunk" ->
  ty <> VStr "stream_complete" ->
  ty <> VStr "completion" ->
  handleMessage data c = (Ok tt, c).
Proof.
  intros c Hl Hd Hty H1 H2 H3 H4.
  assert (Hid : id <> EmptyString) by by eapply registered_nonempty.
  rewrite (handleMessage_dispatch data c id _ Hd Hid Hl).
  unfold call_handler, chat_handler, bind, lift. rewrite Hty.
  by rewrite !strict_eq_str_false by done.
Qed.

Lemma chat_ignores_unknown_types_witness :
  let c := run initial [CallSend [] None sample_draws] in
  messageHandlers c !! sample_id =
    Some (ChatHandler 0%nat (VBool true) None EmptyString) /\
  handleMessage (pong sample_id) c = (Ok tt, c) /\
  handleMessage (VObj [("request_id", VStr sample_id)]) c = (Ok tt, c).
Proof.
  intros c. split; [reflexivity |]. split.
  - exact (chat_ignores_unknown_types [CallSend [] None sample_draws]
             sample_id 0%nat (VBool true) None EmptyString (pong sample_id)
             (VStr "pong") eq_refl eq_refl eq_refl ltac:(discriminate)
             ltac:(discriminate) ltac:(discriminate) ltac:(discriminate)).
  - exact (chat_ignores_unknown_types [CallSend [] None sample_draws]
             sample_id 0%nat (VBool true) None EmptyString
             (VObj [("request_id", VStr sample_id)]) VUndefined
             eq_refl eq_refl eq_refl ltac:(discriminate)
             ltac:(discriminate) ltac:(discriminate) ltac:(discriminate)).
Defined.

End EngineFacts.

(** ** Failed sends and throwing observers *)

Module FailureFacts.
Import Uuid UuidFacts Client ClientFacts RequestFacts EngineFacts.

#[local] Arguments settle_calls : simpl never.
#[local] Arguments generateUUID : simpl never.
#[local] Arguments build_request : simpl never.

Lemma chat_handler_with_returns (id : string) (p : promise) (stream : value)
    (onChunk : option observer) (full : string) (data : value) (c : client) :
  chat_handler_with (fun _ _ _ => Returns) id p stream onChunk full data c =
  chat_handler id p stream onChunk full data c.
Proof. reflexivity. Qed.

(** With observers that return, the general entry point is
    [handleMessage]. *)
Lemma handleMessage_with_returns (data : value) (c : client) :
  handleMessage_with (fun _ _ _ => Returns) data c = handleMessage data c.
Proof.
  unfold handleMessage_with, handleMessage, bind, lift.
  destruct (get_field data "request_id") as [rid |]; [| done].
  destruct (truthy rid); [| done].
  by destruct rid.
Qed.

Lemma call_handler_with_touched (behaviour : conduct)
    (id : string) (h : handler) (data : value) (c : client) :
  touched id h c (call_handler_with behaviour id h data c).2.
Proof.
  destruct h as [p stream onChunk full | p];
    unfold call_handler_with, chat_handler_with, ping_handler,
      call_observer, bind, lift, emit, delete_handler, set_handler, ret;
    repeat case_match; simplify_eq/=;
    try (by constructor).
  all: try (apply (touched_settled id _ c []);
            [by constructor | by cbn; rewrite ?Nat.eqb_refl]).
  - by apply (touched_accumulated id _ c p stream (Some o) full a3
                [OnChunk o a2]); [| repeat constructor].
  - by apply (touched_accumulated id _ c p stream (Some o) full a3
                [OnChunk o a2]); [| repeat constructor].
  - pose proof (touched_accumulated id _ c p stream (Some o) full a3 []
                  eq_refl (Forall_nil_2 _)) as R.
    unfold accumulated in R. by rewrite app_nil_r in R.
  - pose proof (touched_accumulated id _ c p stream None full a3 []
                  eq_refl (Forall_nil_2 _)) as R.
    unfold accumulated in R. by rewrite app_nil_r in R.
  - rewrite <- app_assoc.
    apply (touched_settled id _ c [ConsoleLog "Received pong"]);
      [by repeat constructor | by cbn; rewrite Nat.eqb_refl].
Qed.

Lemma handleMessage_with_touched (behaviour : conduct)
    (data : value) (c : client) :
  (handleMessage_with behaviour data c).2 = c \/
  exists id h, get_field data "request_id" = Ok (VStr id) /\
               messageHandlers c !! id = Some h /\
               touched id h c (handleMessage_with behaviour data c).2.
Proof.
  unfold handleMessage_with, bind, lift.
  destruct (get_field data "request_id") as [rid | e]; [| by left].
  destruct (truthy rid); [| by left].
  destruct rid as [| | | | id | |]; try by left.
  cbn. destruct (messageHandlers c !! id) as [h |] eqn:Hh; [| by left].
  right. exists id, h. split; [done |]. split; [done |].
  apply call_handler_with_touched.
Qed.

Lemma play_snoc (behaviour : conduct) (c : client)
    (ts : list turn) (t : turn) :
  play behaviour c (ts ++ [t]) = take behaviour (play behaviour c ts) t.
Proof. unfold play. by rewrite fold_left_app. Qed.

Lemma handed_out_app (ts ts' : list turn) :
  handed_out (ts ++ ts') = handed_out ts ++ handed_out ts'.
Proof. unfold handed_out. by rewrite omap_app. Qed.

Lemma went_out_app (ts ts' : list turn) :
  went_out (ts ++ ts') = went_out ts ++ went_out ts'.
Proof. unfold went_out. by rewrite omap_app. Qed.

Lemma reject_other (p q : promise) (msg : string) :
  p <> q -> settle_calls p [Reject q msg] = 0%nat.
Proof.
  intros Hne. apply (settle_calls_other p q); [| done].
  cbn. by rewrite Nat.eqb_refl.
Qed.

Lemma sound_take (behaviour : conduct)
    (ids : list string) (ok : list bool) (c : client) (t : turn) :
  sound ids ok c ->
  sound (ids ++ handed_out [t]) (ok ++ went_out [t]) (take behaviour c t).
Proof.
  intros [[Hn Hk] Hh Ht Hu].
  assert (Hold : forall p, (p < length ids)%nat ->
            forall b, (ok ++ [b]) !! p = Some true -> ok !! p = Some true).
  { intros p Hp b H. rewrite lookup_app_l in H by lia. done. }
  destruct t as [sent thrown options onChunk draws | sent thrown draws
                | data | k]; unfold take.
  - (* sendChatCompletion *)
    cbn [handed_out went_out omap].
    change (omap _ []) with (@nil string).
    assert ((sendChatCompletion_on sent thrown options onChunk draws c).2 =
            Client (<[generateUUID draws :=
                        ChatHandler (promises c)
                          (with_default (assoc "stream" options) (VBool true))
                          onChunk EmptyString]> (messageHandlers c))
                   (timers c) (S (promises c))
                   (trace c ++
                    if sent
                    then [WsSend (build_request (generateUUID draws) options);
                          ConsoleLog ("Sent request " +:+ generateUUID draws)]
                    else [Reject (promises c) thrown])) as ->.
    { destruct sent.
      - by rewrite sendChatCompletion_on_connected, sendChatCompletion_eq.
      - by rewrite sendChatCompletion_on_null. }
    split; cbn [messageHandlers timers promises trace].
    + rewrite !length_app. cbn. lia.
    + intros id h. rewrite lookup_insert. case_decide as Hid.
      * intros [= <-]. cbn [handler_promise]. subst id. split.
        { rewrite Hn. by rewrite lookup_app_r, Nat.sub_diag. }
        rewrite Hn, lookup_app_r, Hk, Nat.sub_diag by lia. cbn.
        intros [= ->]. rewrite settle_calls_app, Hu by lia.
        by rewrite (silent_calls _ [_; _]) by (by repeat constructor).
      * intros Hl. destruct (Hh _ _ Hl) as [Hi Hs].
        pose proof (lookup_lt_Some _ _ _ Hi) as Hlt. split.
        { by apply lookup_app_l_Some. }
        intros Hok. rewrite settle_calls_app, Hs by eauto.
        destruct sent.
        { by rewrite (silent_calls _ [_; _]) by (by repeat constructor). }
        rewrite reject_other; [done | lia].
    + intros t Hin. destruct (Ht _ Hin) as [Hi Ho].
      split; by apply lookup_app_l_Some.
    + intros p. rewrite length_app. cbn. intros Hp.
      rewrite settle_calls_app, Hu by lia. destruct sent.
      { by rewrite (silent_calls _ [_; _]) by (by repeat constructor). }
      rewrite reject_other; [done | lia].
  - (* ping *)
    cbn [handed_out went_out omap].
    change (omap _ []) with (@nil string).
    assert ((ping_on sent thrown draws c).2 =
            Client (<[generateUUID draws := PingHandler (promises c)]>
                      (messageHandlers c))
                   (timers c ++
                    if sent then [Timer (generateUUID draws) (promises c)]
                    else [])
                   (S (promises c))
                   (trace c ++
                    if sent
                    then [WsSend (VObj [("type", VStr "ping");
                                        ("request_id",
                                         VStr (generateUUID draws))])]
                    else [Reject (promises c) thrown])) as ->.
    { destruct sent.
      - by rewrite ping_on_connected, ping_eq.
      - by rewrite ping_on_null, app_nil_r. }
    split; cbn [messageHandlers timers promises trace].
    + rewrite !length_app. cbn. lia.
    + intros id h. rewrite lookup_insert. case_decide as Hid.
      * intros [= <-]. cbn [handler_promise]. subst id. split.
        { rewrite Hn. by rewrite lookup_app_r, Nat.sub_diag. }
        rewrite Hn, lookup_app_r, Hk, Nat.sub_diag by lia. cbn.
        intros [= ->]. rewrite settle_calls_app, Hu by lia.
        by rewrite (silent_calls _ [_]) by (by repeat constructor).
      * intros Hl. destruct (Hh _ _ Hl) as [Hi Hs].
        pose proof (lookup_lt_Some _ _ _ Hi) as Hlt. split.
        { by apply lookup_app_l_Some. }
        intros Hok. rewrite settle_calls_app, Hs by eauto.
        destruct sent.
        { by rewrite (silent_calls _ [_]) by (by repeat constructor). }
        rewrite reject_other; [done | lia].
    + intros t [Hin | Hin]%elem_of_app.
      * destruct (Ht _ Hin) as [Hi Ho]. split; by apply lookup_app_l_Some.
      * destruct sent; [| by apply elem_of_nil in Hin].
        apply list_elem_of_singleton in Hin as ->. cbn.
        rewrite Hn. split; [by rewrite lookup_app_r, Nat.sub_diag |].
        by rewrite lookup_app_r, Hk, Nat.sub_diag by lia.
    + intros p. rewrite length_app. cbn. intros Hp.
      rewrite settle_calls_app, Hu by lia. destruct sent.
      { by rewrite (silent_calls _ [_]) by (by repeat constructor). }
      rewrite reject_other; [done | lia].
  - (* handleMessage *)
    cbn [handed_out went_out omap]. rewrite !app_nil_r.
    destruct (handleMessage_with_touched behaviour data c)
      as [-> | (id & h & _ & Hl & R)]; [by split |].
    destruct (Hh _ _ Hl) as [Hi Hs].
    destruct R as [| pre e Hpre He | p s o full full' tr -> Htr];
      [by split | |].
    + split; cbn [settled messageHandlers timers promises trace];
        [done | | done |].
      * intros id' h'. rewrite lookup_delete. case_decide as Hid; [done |].
        intros Hl'. destruct (Hh _ _ Hl') as [Hi' Hs']. split; [done |].
        intros Hok. rewrite !settle_calls_app, Hs', (silent_calls _ pre Hpre)
          by done.
        rewrite (settle_calls_other _ _ _ He); [done |]. congruence.
      * intros p Hp.
        rewrite !settle_calls_app, Hu, (silent_calls _ pre Hpre) by done.
        rewrite (settle_calls_other _ _ _ He); [done |].
        apply lookup_lt_Some in Hi. lia.
    + split; cbn [accumulated messageHandlers timers promises trace];
        [done | | done |].
      * intros id' h'. rewrite lookup_insert. case_decide as Hid.
        { intros [= <-]. subst id'. cbn in *. split; [done |].
          intros Hok. by rewrite settle_calls_app, Hs, (silent_calls _ tr)
            by done. }
        intros Hl'. destruct (Hh _ _ Hl') as [Hi' Hs']. split; [done |].
        intros Hok. by rewrite settle_calls_app, Hs', (silent_calls _ tr)
          by done.
      * intros q Hq.
        by rewrite settle_calls_app, Hu, (silent_calls _ tr) by done.
  - (* timer *)
    cbn [handed_out went_out omap]. rewrite !app_nil_r. unfold expire.
    destruct (timers c !! k) as [t |] eqn:Hk'; [| by split].
    assert (Hin : t ∈ timers c) by by eapply list_elem_of_lookup_2.
    destruct (Ht _ Hin) as [Hti Hto].
    assert (Hsub : forall t', t' ∈ delete k (timers c) -> t' ∈ timers c).
    { intros t'. apply list_elem_of_delete_inv. }
    unfold on_timeout. cbn [messageHandlers].
    destruct (messageHandlers c !! pingId t) as [h |] eqn:Hl; cbn.
    + split; cbn; [done | | by eauto |].
      * intros id' h'. rewrite lookup_delete. case_decide as Hid; [done |].
        intros Hl'. destruct (Hh _ _ Hl') as [Hi' Hs']. split; [done |].
        intros Hok. rewrite settle_calls_app, Hs' by done.
        rewrite reject_other; [done |].
        intros E. rewrite E, Hti in Hi'. congruence.
      * intros p Hp. rewrite settle_calls_app, Hu by done.
        rewrite reject_other; [done |].
        pose proof (lookup_lt_Some _ _ _ Hti). lia.
    + split; cbn; by eauto.
Qed.

Lemma sound_initial : sound [] [] initial.
Proof.
  split; unfold initial; cbn [messageHandlers timers trace promises].
  - done.
  - intros id h. by rewrite lookup_empty.
  - intros t. by rewrite elem_of_nil.
  - done.
Qed.

Lemma sound_play (behaviour : conduct) (ts : list turn) :
  sound (handed_out ts) (went_out ts) (play behaviour initial ts).
Proof.
  induction ts as [| t ts IH] using rev_ind.
  - apply sound_initial.
  - rewrite play_snoc, handed_out_app, went_out_app. by apply sound_take.
Qed.

(** With distinct identifiers, a promise whose request went out is never
    settled twice, whatever happens to requests that did not go out. *)
Lemma once_take (behaviour : conduct)
    (ids : list string) (ok : list bool) (c : client) (t : turn) :
  NoDup ids ->
  sound ids ok c ->
  (forall p, ok !! p = Some true -> (settle_calls p (trace c) <= 1)%nat) ->
  forall p, (ok ++ went_out [t]) !! p = Some true ->
            (settle_calls p (trace (take behaviour c t)) <= 1)%nat.
Proof.
  intros Hnd [[Hn Hk] Hh Ht Hu] Hone p.
  assert (Hnew : forall b tr,
            (ok ++ [b]) !! p = Some true ->
            (forall q, q <> promises c -> settle_calls q tr = 0%nat) ->
            (b = true -> settle_calls (promises c) tr = 0%nat) ->
            (settle_calls p (trace c ++ tr) <= 1)%nat).
  { intros b tr Hok Hq Hb. rewrite settle_calls_app.
    destruct (decide (p = promises c)) as [-> | Hne].
    - rewrite Hn, lookup_app_r, Hk, Nat.sub_diag in Hok by lia.
      injection Hok as ->. rewrite Hu, Hb by (done || lia). lia.
    - rewrite Hq by done.
      assert (p < length ok)%nat.
      { apply lookup_lt_Some in Hok. rewrite length_app in Hok. cbn in Hok.
        lia. }
      rewrite lookup_app_l in Hok by done. specialize (Hone p Hok). lia. }
  destruct t as [sent thrown options onChunk draws | sent thrown draws
                | data | k]; unfold take; cbn [went_out omap].
  - intros Hok.
    destruct sent.
    + rewrite sendChatCompletion_on_connected, sendChatCompletion_eq.
      cbn [snd trace]. apply (Hnew true); [done | |];
        intros; by apply silent_calls; repeat constructor.
    + rewrite sendChatCompletion_on_null. cbn [snd trace].
      apply (Hnew false); [done | | done].
      intros q Hq. by apply reject_other.
  - intros Hok.
    destruct sent.
    + rewrite ping_on_connected, ping_eq.
      cbn [snd trace]. apply (Hnew true); [done | |];
        intros; by apply silent_calls; repeat constructor.
    + rewrite ping_on_null. cbn [snd trace].
      apply (Hnew false); [done | | done].
      intros q Hq. by apply reject_other.
  - rewrite app_nil_r. intros Hok.
    destruct (handleMessage_with_touched behaviour data c)
      as [-> | (id & h & _ & Hl & R)]; [by apply Hone |].
    destruct (Hh _ _ Hl) as [Hi Hs].
    destruct R as [| pre e Hpre He | q s o full full' tr -> Htr];
      cbn [settled accumulated trace]; [by apply Hone | |].
    + rewrite !settle_calls_app, (silent_calls _ pre Hpre), settle_calls_one.
      destruct (settles p e) eqn:Hp; [| specialize (Hone p Hok); lia].
      rewrite (settles_same _ _ _ Hp He) in Hok |- *. rewrite Hs by done. lia.
    + rewrite settle_calls_app, (silent_calls _ tr) by done.
      specialize (Hone p Hok). lia.
  - rewrite app_nil_r. intros Hok. unfold expire.
    destruct (timers c !! k) as [t |] eqn:Hk'; [| by apply Hone].
    assert (Hin : t ∈ timers c) by by eapply list_elem_of_lookup_2.
    destruct (Ht _ Hin) as [Hti Hto].
    unfold on_timeout. cbn [messageHandlers].
    destruct (messageHandlers c !! pingId t) as [h |] eqn:Hl; cbn;
      [| by apply Hone].
    destruct (Hh _ _ Hl) as [Hi Hs].
    assert (handler_promise h = ping_promise t) as E
      by (eapply NoDup_lookup; eauto).
    rewrite settle_calls_app, settle_calls_one. cbn.
    destruct (Nat.eqb_spec p (ping_promise t)) as [-> | _];
      [rewrite <- E, Hs by (by rewrite E); lia | specialize (Hone p Hok); lia].
Qed.

Lemma once_play (behaviour : conduct) (ts : list turn) :
  NoDup (handed_out ts) ->
  forall p, went_out ts !! p = Some true ->
            (settle_calls p (trace (play behaviour initial ts)) <= 1)%nat.
Proof.
  induction ts as [| t ts IH] using rev_ind; intros Hnd p.
  - change (went_out []) with (@nil bool). by rewrite lookup_nil.
  - rewrite play_snoc, went_out_app. rewrite handed_out_app in Hnd.
    apply NoDup_app in Hnd as (Hnd & _ & _).
    eapply once_take; [done | apply sound_play | by apply IH].
Qed.

Lemma handleMessage_with_drop (behaviour : conduct)
    (data : value) (c : client) (rid : value) :
  get_field data "request_id" = Ok rid ->
  lookup_handler rid c = None ->
  handleMessage_with behaviour data c = (Ok tt, c).
Proof.
  intros Hid Hh. unfold handleMessage_with, bind, lift. rewrite Hid.
  destruct (truthy rid); [| done].
  destruct rid; try done. cbn in *. by rewrite Hh.
Qed.

(** C2, as amended: the turns of a run may include requests and pings whose
    [this.ws.send] throws, and observers that throw; identifiers are
    pairwise distinct.  For every exchange whose request went out,
    [resolve] and [reject] are called at most once altogether (never both,
    never twice); its promise is pending as long as its closure is
    registered; and once it has been settled (by a frame or by the
    timeout), the exchange is absent from the registry and every frame
    bearing its identifier is dropped: nothing is called and the client is
    unchanged. *)
Theorem sent_exchange_settles_once
    (behaviour : conduct) (ts : list turn) :
  NoDup (handed_out ts) ->
  let c := play behaviour initial ts in
  (forall p, went_out ts !! p = Some true ->
             (settle_calls p (trace c) <= 1)%nat) /\
  (forall id h,
     messageHandlers c !! id = Some h ->
     went_out ts !! handler_promise h = Some true ->
     settle_calls (handler_promise h) (trace c) = 0%nat) /\
  (forall p id,
     handed_out ts !! p = Some id ->
     went_out ts !! p = Some true ->
     settle_calls p (trace c) = 1%nat ->
     messageHandlers c !! id = None /\
     forall data, get_field data "request_id" = Ok (VStr id) ->
                  handleMessage_with behaviour data c = (Ok tt, c)).
Proof.
  intros Hnd c. destruct (sound_play behaviour ts) as [_ Hh _ _].
  fold c in Hh. split; [by apply once_play |].
  split; [intros id h Hl; by apply (Hh id h Hl) |].
  intros p id Hp Hok Hs.
  assert (Hnone : messageHandlers c !! id = None).
  { destruct (messageHandlers c !! id) as [h |] eqn:Hl; [| done].
    destruct (Hh _ _ Hl) as [Hi H0].
    assert (handler_promise h = p) as E by (eapply NoDup_lookup; eauto).
    rewrite E in H0. rewrite H0 in Hs by done. lia. }
  split; [done |]. intros data Hd. by eapply handleMessage_with_drop.
Qed.

Lemma sent_exchange_settles_once_witness :
  let behaviour : conduct := fun _ _ _ => Raises in
  let other := "00000000-0000-4000-8000-000000000000" in
  let ts := [TurnSend false "not open" [] None (fun _ => 0 # 1)%Q;
             TurnPing true "" sample_draws;
             TurnMessage (stream_complete other);
             TurnMessage (pong sample_id);
             TurnMessage (pong sample_id); TurnExpire 0%nat] in
  let c := play behaviour initial ts in
  NoDup (handed_out ts) /\
  went_out ts !! 1%nat = Some true /\
  settle_calls 1%nat (trace c) = 1%nat /\
  messageHandlers c !! sample_id = None /\
  handleMessage_with behaviour (error_frame sample_id "late") c = (Ok tt, c).
Proof.
  intros behaviour other ts c.
  assert (Hnd : NoDup (handed_out ts)).
  { apply (bool_decide_unpack _). by vm_compute. }
  assert (Hs : settle_calls 1%nat (trace c) = 1%nat)
    by (vm_compute; reflexivity).
  destruct (sent_exchange_settles_once behaviour ts Hnd) as (_ & _ & H).
  destruct (H 1%nat sample_id eq_refl eq_refl Hs) as [Hnone Hdrop].
  split; [exact Hnd |]. split; [reflexivity |]. split; [exact Hs |].
  split; [exact Hnone |]. by apply Hdrop.
Defined.

(** C2 as stated fails in two ways.  When [this.ws.send] throws (here
    before [connect]), the promise is rejected while its closure stays
    registered, so a later frame bearing the identifier is dispatched and
    calls [resolve] as well.  And when an identifier is issued twice, the
    timer of the first heartbeat, already fulfilled by its [pong], rejects
    it on behalf of the second. *)
Lemma settled_twice :
  let behaviour : conduct := fun _ _ _ => Returns in
  let failed := play behaviour initial
                  [TurnSend false "not open" [] None sample_draws] in
  let c := play behaviour initial
             [TurnSend false "not open" [] None sample_draws;
              TurnMessage (stream_complete sample_id)] in
  let c' := play behaviour initial
              [TurnPing true "" sample_draws; TurnMessage (pong sample_id);
               TurnPing true "" sample_draws; TurnExpire 0%nat] in
  promise_state 0%nat (trace failed) = Some (Rejected "not open") /\
  messageHandlers failed !! sample_id <> None /\
  trace c = [Reject 0%nat "not open"; Resolve 0%nat (VStr "")] /\
  settle_calls 0%nat (trace c) = 2%nat /\
  settle_calls 0%nat (trace c') = 2%nat.
Proof.
  intros behaviour failed c c'.
  split; [reflexivity |]. split; [by vm_compute |].
  split; [reflexivity |]. split; by vm_compute.
Qed.



End FailureFacts.

(** ** Transport handling *)

Module ConnectionFacts.
Import Connection.

Lemma perform_all_snoc (l : link) (cs : list call) (c : call) :
  perform_all l (cs ++ [c]) = perform (perform_all l cs) c.
Proof. unfold perform_all. by rewrite fold_left_app. Qed.

Lemma perform_all_app (l : link) (cs cs' : list call) :
  perform_all l (cs ++ cs') = perform_all (perform_all l cs) cs'.
Proof. unfold perform_all. by rewrite fold_left_app. Qed.

Lemma current_snoc (ss : list socket) (s : socket) (cl : list nat) :
  current (Link (Some (length ss)) (ss ++ [s]) cl).
Proof.
  unfold current. cbn. destruct (ss ++ [s]) as [| s0 rest] eqn:E.
  - by destruct ss.
  - apply (f_equal length) in E. rewrite length_app in E. cbn in E.
    f_equal. cbn. lia.
Qed.

Lemma current_perform (l : link) (c : call) :
  current l -> current (perform l c).
Proof.
  intros Hc. destruct c as [env url apiKey |]; cbn.
  - unfold connect.
    destruct env; [destruct (auth_headers apiKey); [| done] |];
      cbn; exact (current_snoc _ _ _).
  - unfold disconnect, current in *.
    destruct (ws l) as [n |] eqn:Hw; [cbn; congruence | by rewrite Hw].
Qed.

Lemma current_perform_all (cs : list call) :
  current (perform_all unconnected cs).
Proof.
  induction cs as [| c cs IH] using rev_ind; [done |].
  rewrite perform_all_snoc. by apply current_perform.
Qed.

Lemma sockets_grow (l : link) (c : call) :
  (length (sockets l) <= length (sockets (perform l c)))%nat.
Proof.
  destruct c as [env url apiKey |]; cbn.
  - unfold connect.
    destruct env; [destruct (auth_headers apiKey); [| done] |];
      cbn; rewrite length_app; cbn; lia.
  - unfold disconnect. by destruct (ws l).
Qed.

(** Every close call names the socket that was the latest at that time. *)
Lemma closed_step (l : link) (c : call) (n : nat) :
  current l ->
  n ∈ closed (perform l c) ->
  n ∈ closed l \/ (c = Disconnect /\ S n = length (sockets l)).
Proof.
  unfold current. intros Hc.
  destruct c as [env url apiKey |]; cbn.
  - unfold connect.
    destruct env; [destruct (auth_headers apiKey) |]; cbn; eauto.
  - unfold disconnect. destruct (ws l) as [m |] eqn:Hw; [| by eauto].
    cbn. intros [Hin | ->%list_elem_of_singleton]%elem_of_app; [by eauto |].
    right. split; [done |].
    destruct (sockets l) as [| s ss]; simplify_eq/=. lia.
Qed.


Lemma closed_bound (cs : list call) (n : nat) :
  n ∈ closed (perform_all unconnected cs) ->
  (n < length (sockets (perform_all unconnected cs)))%nat.
Proof.
  induction cs as [| c cs IH] using rev_ind;
    [by intros ?%elem_of_nil |].
  rewrite perform_all_snoc. intros Hin.
  pose proof (sockets_grow (perform_all unconnected cs) c) as Hg.
  apply closed_step in Hin as [Hin | [_ Hlen]];
    [specialize (IH Hin) | | apply current_perform_all]; lia.
Qed.

Lemma sockets_kept (l : link) (c : call) (n : nat) (s : socket) :
  sockets l !! n = Some s -> sockets (perform l c) !! n = Some s.
Proof.
  intros Hs. destruct c as [env url apiKey |]; cbn.
  - unfold connect.
    destruct env; [destruct (auth_headers apiKey); [| done] |];
      cbn; by apply lookup_app_l_Some.
  - unfold disconnect. by destruct (ws l).
Qed.

(** A socket that is no longer the latest is out of reach of [close()]. *)
Lemma replaced_step (l : link) (c : call) (n : nat) :
  current l ->
  (n + 2 <= length (sockets l))%nat ->
  n ∉ closed l ->
  (n + 2 <= length (sockets (perform l c)))%nat /\
  (n ∉ closed (perform l c)).
Proof.
  intros Hc Hlen Hn. pose proof (sockets_grow l c). split; [lia |].
  intros Hin. apply closed_step in Hin as [Hin | [_ Hl]]; [done | lia | done].
Qed.

Lemma replaced_all (l : link) (cs : list call) (n : nat) (s : socket) :
  current l ->
  (n + 2 <= length (sockets l))%nat ->
  n ∉ closed l ->
  sockets l !! n = Some s ->
  (n ∉ closed (perform_all l cs)) /\
  sockets (perform_all l cs) !! n = Some s.
Proof.
  intros Hc Hlen Hn Hs.
  assert (current (perform_all l cs) /\
          (n + 2 <= length (sockets (perform_all l cs)))%nat /\
          (n ∉ closed (perform_all l cs)) /\
          sockets (perform_all l cs) !! n = Some s) as (_ & _ & ? & ?);
    [| done].
  induction cs as [| c cs (IH1 & IH2 & IH3 & IH4)] using rev_ind; [done |].
  rewrite perform_all_snoc.
  destruct (replaced_step _ c n IH1 IH2 IH3).
  split; [by apply current_perform |]. split; [done |]. split; [done |].
  by apply sockets_kept.
Qed.

Lemma connect_ok (env : environment) (url : string) (apiKey : value)
    (l : link) :
  (connect env url apiKey l).1 = Ok tt ->
  exists headers,
    (connect env url apiKey l).2 =
    Link (Some (length (sockets l))) (sockets l ++ [Socket url headers])
         (closed l).
Proof.
  unfold connect. destruct env; [destruct (auth_headers apiKey) |];
    cbn; try done; eauto.
Qed.

(** X21: reconnecting leaks the previous socket.  When [connect] is called
    again without a [disconnect] in between, the socket of the earlier
    call stays open for good: no later call closes it, because [close()]
    only ever reaches the socket stored last. *)
Theorem reconnect_leaks_socket (before after : list call)
    (env env' : environment) (url url' : string) (apiKey apiKey' : value) :
  let l0 := perform_all unconnected before in
  (connect env url apiKey l0).1 = Ok tt ->
  (connect env' url' apiKey' (connect env url apiKey l0).2).1 = Ok tt ->
  let l := perform_all unconnected
             (before ++ [Connect env url apiKey; Connect env' url' apiKey']
                     ++ after) in
  (exists headers,
     sockets l !! length (sockets l0) = Some (Socket url headers)) /\
  (length (sockets l0) ∉ closed l).
Proof.
  intros l0 H1 H2 l.
  destruct (connect_ok _ _ _ _ H1) as [h1 E1].
  destruct (connect_ok _ _ _ _ H2) as [h2 E2]. rewrite E1 in E2. cbn in E2.
  assert (Hl : l = perform_all
                     (Link (Some (length (sockets l0 ++ [Socket url h1])))
                           ((sockets l0 ++ [Socket url h1]) ++
                            [Socket url' h2]) (closed l0)) after).
  { unfold l. rewrite !perform_all_app. cbn [perform_all fold_left perform].
    fold l0. by rewrite E1, E2. }
  destruct (replaced_all
              (Link (Some (length (sockets l0 ++ [Socket url h1])))
                    ((sockets l0 ++ [Socket url h1]) ++ [Socket url' h2])
                    (closed l0))
              after (length (sockets l0)) (Socket url h1))
    as [Hn Hs].
  - apply current_snoc.
  - cbn [sockets]. rewrite !length_app. cbn [length]. lia.
  - cbn [closed]. intros Hin%closed_bound. fold l0 in Hin. lia.
  - cbn. rewrite <- app_assoc. by apply list_lookup_middle.
  - rewrite Hl. eauto.
Qed.

Lemma reconnect_leaks_socket_witness :
  let l := perform_all unconnected
             [Connect NodeJs "ws://a" (VStr "k");
              Connect Browser "ws://b" VNull; Disconnect; Disconnect] in
  sockets l !! 0%nat =
    Some (Socket "ws://a" (Some [("Authorization", VStr "Bearer k")])) /\
  closed l = [1%nat; 1%nat] /\
  (0%nat ∉ closed l).
Proof.
  intros l. split; [reflexivity |]. split; [reflexivity |].
  exact (proj2 (reconnect_leaks_socket [] [Disconnect; Disconnect]
                  NodeJs Browser "ws://a" "ws://b" (VStr "k") VNull
                  eq_refl eq_refl)).
Defined.

End ConnectionFacts.
